(** * Sariaf: the routing trie of the HTTP router

    A shallow embedding of [Node.add], [Node.find], [Router.Search] and
    [Router.Handle] of the Go package [sariaf], and the properties of
    registration and resolution proved about them.

    Go strings are byte strings: [string] (a list of [ascii]) models them,
    [String.length] is [len] and [String.get] is indexing.  A Go
    [map[string]*Node] is a [gmap string Node]; the trie is a tree (every
    node is pointed to by exactly one parent), so the in-place updates of
    [add] through [*Node] pointers are rendered by rebuilding the path from
    the root to the updated node. *)

From Stdlib Require Import Ascii String.
From stdpp Require Import gmap strings list fin_maps.

Local Open Scope string_scope.

(** ** The [strings] and [path/filepath] functions the router calls *)

Module strings.

(** [strings.TrimPrefix(s, prefix)]. *)
Definition TrimPrefix (s prefix : string) : string :=
  if String.prefix prefix s
  then String.substring (String.length prefix)
                        (String.length s - String.length prefix) s
  else s.

(** [strings.Split(s, "/")]: the pieces of [s] between the separators;
    never empty, [Split("", "/")] is [[""]]. *)
Fixpoint SplitSlash (s : string) : list string :=
  match s with
  | EmptyString => [""]
  | String c s' =>
      if Ascii.eqb c "/" then "" :: SplitSlash s'
      else match SplitSlash s' with
           | piece :: pieces => String c piece :: pieces
           | [] => [String c ""]
           end
  end.

(** [strings.Join(elems, sep)]. *)
Definition Join (elems : list string) (sep : string) : string :=
  String.concat sep elems.

End strings.

Module filepath.

(** Go's [filepath.Clean] works through the path lexically; here it is
    given on the path elements, for the separator [/].

    One path element of [filepath.Clean], on the stack of the elements
    kept so far (innermost first): empty and [.] elements are dropped, a
    [..] removes the element before it, is dropped at the root of a
    rooted path and is kept in front of a relative one. *)
Definition clean_elem (rooted : bool) (kept : list string) (e : string)
  : list string :=
  if String.eqb e "" || String.eqb e "." then kept
  else if String.eqb e ".." then
    match kept with
    | top :: below =>
        if String.eqb top ".." then e :: kept else below
    | [] => if rooted then [] else [e]
    end
  else e :: kept.

(** [filepath.Clean(path)] with the separator [/]. *)
Definition Clean (path : string) : string :=
  if String.eqb path "" then "."
  else
    let rooted := String.prefix "/" path in
    let kept := foldl (clean_elem rooted) [] (strings.SplitSlash path) in
    let out := (if rooted then "/" else "") ++ strings.Join (rev kept) "/" in
    if String.eqb out "" then "." else out.

(** [filepath.Join(elem...)]: the elements from the first non-empty one
    on, joined with [/] and cleaned. *)
Fixpoint Join (elem : list string) : string :=
  match elem with
  | [] => ""
  | e :: rest =>
      if String.eqb e "" then Join rest
      else Clean (strings.Join elem "/")
  end.

End filepath.

(** ** Data model *)

(** MethodAny means any http method. *)
Definition MethodAny : string := "ANY".

(** An [http.HandlerFunc] is opaque to the router, which only stores it and
    compares it with [nil]: a handler is [Noop] or a named function, and a
    nilable handler is an [option]. *)
Inductive HandlerFunc : Type :=
| Noop
| Func (name : string).

(** RouterParams is the type for request params; a [nil] map is [None]
    where the code can return one. *)
Abbreviation RouterParams := (gmap string string).

(** RouterOption is the option type for router; the [interface{}] tag is
    [nil] or a value. *)
Record RouterOption : Type := mkRouterOption { RouterOption_Tag : option string }.

Definition RouterOptionFn : Type := RouterOption -> RouterOption.

(** Tag attaches a tag to router option. *)
Definition Tag (tag : option string) : RouterOptionFn :=
  fun _ => {| RouterOption_Tag := tag |}.

(** Node represents a sub path in the router trie.  The back pointer
    [Router] is only read by [Node.ServeHTTP] and is left out. *)
#[warnings="-register-all"]
Inductive Node : Type := mkNode {
  Path : string;
  Key : string;
  Children : gmap string Node;
  Handler : option HandlerFunc;
  Param : string;
  Star : bool;
  Option : option RouterOption
}.

(** The two root errors ([fmt.Errorf] wraps them with [%w]; [errors.Is]
    sees the root). *)
Inductive error : Type :=
| ErrRouterDuplicate
| ErrRouterSyntax.

(** Router: only [trees] is read or written by [Handle] and [Search]. *)
Record Router : Type := mkRouter { trees : gmap string Node }.

(** New returns a new Router. *)
Definition New : Router := {| trees := ∅ |}.

(** ** [Node.add] *)

(** [len(k) > 1 && k[0] == c]. *)
Definition has_sigil (c : ascii) (k : string) : bool :=
  (1 <? String.length k)%nat &&
  match String.get 0 k with
  | Some c0 => Ascii.eqb c0 c
  | None => false
  end.

(** The first loop of [add]: count the [*abc] segments, and return the
    syntax error as soon as there are two. *)
Fixpoint add_scan (slice : list string) (stars : nat) : error + nat :=
  match slice with
  | [] => inr stars
  | k :: rest =>
      let stars := if has_sigil "*" k then S stars else stars in
      if (1 <? stars)%nat then inl ErrRouterSyntax
      else add_scan rest stars
  end.

(** [param] and the key of a segment: [":abc"] and ["*abc"] become the key
    ["*"] with the param ["abc"]. *)
Definition add_key (k : string) : string * string :=
  if has_sigil ":" k || has_sigil "*" k
  then ("*", String.substring 1 (String.length k - 1) k)
  else (k, "").

(** [current.Children[k] = next], by which the parent sees every later
    write to [next]. *)
Definition set_child (current : Node) (k : string) (next : Node) : Node :=
  mkNode (Path current) (Key current) (<[k := next]> (Children current))
         (Handler current) (Param current) (Star current) (Option current).

(** [current.Handler = handler]. *)
Definition set_handler (current : Node) (handler : option HandlerFunc) : Node :=
  mkNode (Path current) (Key current) (Children current)
         handler (Param current) (Star current) (Option current).

(** What follows the second loop of [add]. *)
Definition add_finish (handler : option HandlerFunc) (duplicate : bool)
    (current : Node) : Node * option error :=
  if duplicate then (current, Some ErrRouterDuplicate)
  else (set_handler current handler, None).

(** The second loop of [add], from the node [current] on the segments still
    to come: the updated [current] and the error returned. *)
Fixpoint add_loop (path : string) (handler : option HandlerFunc)
    (opt : RouterOption) (stars : nat) (slice : list string)
    (duplicate starPrev : bool) (current : Node) : Node * option error :=
  match slice with
  | [] => add_finish handler duplicate current
  | k :: rest =>
      let '(k, param) := add_key k in
      if (0 <? stars)%nat && starPrev then
        match Children current !! k with
        | Some _ => add_finish handler duplicate current
        | None => (current, Some ErrRouterSyntax)
        end
      else
        match Children current !! k with
        | Some next =>
            let '(next, err) :=
              add_loop path handler opt stars rest duplicate true next in
            (set_child current k next, err)
        | None =>
            let next :=
              mkNode path k ∅ None param (0 <? stars)%nat (Some opt) in
            let '(next, err) :=
              add_loop path handler opt stars rest false starPrev next in
            (set_child current k next, err)
        end
  end.

(** The segments of a pattern or of a request path. *)
Definition segments (path : string) : list string :=
  strings.SplitSlash (strings.TrimPrefix path "/").

(** add method adds a new path to the trie. *)
Definition add (n : Node) (path : string) (handler : option HandlerFunc)
    (opt : RouterOption) : Node * option error :=
  let slice := segments path in
  match add_scan slice 0 with
  | inl err => (n, Some err)
  | inr stars => add_loop path handler opt stars slice true false n
  end.

(** ** [Node.find] *)

(** How the loop of [find] ends: by one of its two [return]s, or by running
    out of segments at the node [cur]. *)
Inductive find_exit : Type :=
| Returned (node : option Node) (params : RouterParams)
| Fell_through (cur : Node) (params : RouterParams).

(** [cur.Children[k]], and [cur.Children["*"]] when there is none. *)
Definition find_child (cur : Node) (k : string) : option Node :=
  match Children cur !! k with
  | Some next => Some next
  | None => Children cur !! "*"
  end.

(** The loop of [find]; at index [i] the list holds [slice[i:]]. *)
Fixpoint find_loop (cur : Node) (params : RouterParams)
    (slice : list string) : find_exit :=
  match slice with
  | [] => Fell_through cur params
  | k :: rest =>
      match find_child cur k with
      | None => Returned None params
      | Some cur =>
          if negb (String.eqb (Param cur) "") then
            if Star cur then
              Returned (Some cur)
                (<[Param cur := filepath.Join ("/" :: k :: rest)]> params)
            else find_loop cur (<[Param cur := k]> params) rest
          else find_loop cur params rest
      end
  end.

(** The end of [find], first step: "fix pattern /*abc matching". *)
Definition find_star_fix (cur : Node) (params : RouterParams)
  : Node * RouterParams :=
  match Children cur !! "*" with
  | Some next =>
      if Star next then (next, <[Param next := "/"]> params)
      else (cur, params)
  | None => (cur, params)
  end.

(** The end of [find], second step: "avoid only parent matches without
    leaf". *)
Definition find_finish (cur : Node) (params : RouterParams)
  : option Node * RouterParams :=
  let '(cur, params) := find_star_fix cur params in
  match Handler cur with
  | None => (None, params)
  | Some _ => (Some cur, params)
  end.

(** find method match the request url path with a Node in trie. *)
Definition find (n : Node) (path : string) : option Node * RouterParams :=
  match find_loop n ∅ (segments path) with
  | Returned node params => (node, params)
  | Fell_through cur params => find_finish cur params
  end.

(** ** [Router.Search] and [Router.Handle] *)

(** [node != nil]. *)
Definition not_nil {A : Type} (node : option A) : bool :=
  match node with
  | Some _ => true
  | None => false
  end.

(** Search searches the node for specified http method and http request url
    path. *)
Definition Search (r : Router) (method path : string)
  : option Node * option RouterParams :=
  let t := trees r !! method in
  let t :=
    match t with
    | None => if negb (String.eqb method MethodAny)
              then trees r !! MethodAny else None
    | Some _ => t
    end in
  match t with
  | None => (None, None)
  | Some t =>
      let '(node, params) := find t path in
      if not_nil node || String.eqb method MethodAny
      then (node, Some params)
      else
        match trees r !! MethodAny with
        | None => (None, None)
        | Some t => let '(node, params) := find t path in (node, Some params)
        end
  end.

(** The root that [Handle] makes for a method without a trie. *)
Definition new_root : Node := mkNode "/" "" ∅ None "" false None.

(** [routerOption := &RouterOption{}] with every [optionFns] applied. *)
Definition new_option (optionFns : list RouterOptionFn) : RouterOption :=
  foldl (fun o f => f o) {| RouterOption_Tag := None |} optionFns.

(** Handle registers a new path with the given path and method.  (After
    the root is made, [r.trees[method]] is there: the last branch is never
    taken.) *)
Definition Handle (r : Router) (method path : string)
    (handler : option HandlerFunc) (optionFns : list RouterOptionFn)
  : Router * option error :=
  let handler := match handler with None => Noop | Some h => h end in
  let r :=
    match trees r !! method with
    | Some _ => r
    | None => {| trees := <[method := new_root]> (trees r) |}
    end in
  let routerOption := new_option optionFns in
  match trees r !! method with
  | Some t =>
      let '(t, err) := add t path (Some handler) routerOption in
      ({| trees := <[method := t]> (trees r) |}, err)
  | None => (r, None)
  end.

(** ** Notions used in the statements *)

(** The segments [*abc] of a pattern: the ones the first loop of [add]
    counts. *)
Definition star_count (slice : list string) : nat :=
  length (List.filter (has_sigil "*") slice).

(** The keys under which [add] files the segments of a pattern. *)
Definition keys (slice : list string) : list string :=
  map (fun k => (add_key k).1) slice.

(** The nodes for the keys [ks] all exist below [n]. *)
Fixpoint path_exists (n : Node) (ks : list string) : Prop :=
  match ks with
  | [] => True
  | k :: rest =>
      match Children n !! k with
      | Some next => path_exists next rest
      | None => False
      end
  end.

(** The number of nodes of a trie. *)
Fixpoint node_count (n : Node) : nat :=
  S (map_fold (fun _ next acc => node_count next + acc)%nat 0%nat (Children n)).

(** The number of nodes below the children [m] of a node. *)
Definition children_count (m : gmap string Node) : nat :=
  map_fold (fun _ next acc => node_count next + acc)%nat 0%nat m.

(** The invariant of the second loop of [add]: once a node has been
    made ([duplicate] is false) the current node has no children, and in
    a pattern with a [*abc] segment [starPrev] is only set while no node
    has been made. *)
Definition add_inv (stars : nat) (duplicate starPrev : bool)
    (current : Node) : Prop :=
  (duplicate = false -> Children current = ∅) /\
  ((0 <? stars)%nat && starPrev = true -> duplicate = true).

(** The trie [Handle] hands to [add]: the one of the method, or the root
    it makes. *)
Definition tree_of (r : Router) (method : string) : Node :=
  default new_root (trees r !! method).

(** A result of [find] as [Search] returns it. *)
Definition found (res : option Node * RouterParams)
  : option Node * option RouterParams :=
  (res.1, Some res.2).

(** The method fallback policy in the words of the specification: the trie
    of the exact method first; when it misses, or when there is none, the
    trie of ["ANY"]; no match when there is neither. *)
Definition Search_policy (r : Router) (method path : string)
  : option Node * option RouterParams :=
  let any :=
    match trees r !! MethodAny with
    | Some a => found (find a path)
    | None => (None, None)
    end in
  match trees r !! method with
  | Some t =>
      match find t path with
      | (Some node, params) => (Some node, Some params)
      | (None, _) => any
      end
  | None => any
  end.

(** The node that [add] makes for the segment [k] of a pattern with
    [stars] segments [*abc]. *)
Definition fresh_node (path : string) (opt : RouterOption) (stars : nat)
    (k : string) : Node :=
  mkNode path (add_key k).1 ∅ None (add_key k).2 (0 <? stars)%nat (Some opt).

(** The chain of fresh nodes that [add] hangs below a node without
    children. *)
Fixpoint chain (path : string) (handler : option HandlerFunc)
    (opt : RouterOption) (stars : nat) (slice : list string)
    (current : Node) : Node :=
  match slice with
  | [] => set_handler current handler
  | k :: rest =>
      set_child current (add_key k).1
        (chain path handler opt stars rest (fresh_node path opt stars k))
  end.

(** The node of the trailing wildcard [s] of a registered pattern. *)
Definition wildcard_node (path : string) (h : HandlerFunc)
    (opt : RouterOption) (s : string) : Node :=
  mkNode path "*" ∅ (Some h) (add_key s).2 true (Some opt).

(** [find] from a node on, with the params bound so far. *)
Definition find_from (cur : Node) (params : RouterParams)
    (slice : list string) : option Node * RouterParams :=
  match find_loop cur params slice with
  | Returned node params => (node, params)
  | Fell_through cur params => find_finish cur params
  end.

(** What the loop of [find] does once it has moved to the child [cur] for
    the segment [k]. *)
Definition find_enter (cur : Node) (params : RouterParams) (k : string)
    (rest : list string) : find_exit :=
  if negb (String.eqb (Param cur) "") then
    if Star cur then
      Returned (Some cur)
        (<[Param cur := filepath.Join ("/" :: k :: rest)]> params)
    else find_loop cur (<[Param cur := k]> params) rest
  else find_loop cur params rest.

(** A capture segment of a pattern, [:name] or [*name]. *)
Definition is_capture (k : string) : bool :=
  has_sigil ":" k || has_sigil "*" k.

(** A segment of a request path fits a segment of a pattern: any text for
    a capture, the same text for a literal. *)
Definition fits (p q : string) : Prop :=
  is_capture p = true \/ q = p.

(** A string without the separator. *)
Fixpoint no_slash (s : string) : Prop :=
  match s with
  | EmptyString => True
  | String c s' => c <> "/"%char /\ no_slash s'
  end.

(** A path element that [filepath.Clean] keeps as it is. *)
Definition plain (k : string) : Prop :=
  k <> "" /\ k <> "." /\ k <> "..".

(** A run of [Handle] calls with a [nil] handler: the router they leave
    and what each call returned. *)
Fixpoint Handle_all (r : Router)
    (calls : list (string * string * list RouterOptionFn))
  : Router * list (option error) :=
  match calls with
  | [] => (r, [])
  | (method, path, optionFns) :: rest =>
      let '(r, err) := Handle r method path None optionFns in
      let '(r, errs) := Handle_all r rest in
      (r, err :: errs)
  end.

(** What [assertSearch] of the tests looks at: whether a node was found,
    the params, and the tag of the node found. *)
Definition search_outcome (r : Router) (method path : string)
  : bool * option RouterParams * option string :=
  let '(node, params) := Search r method path in
  (not_nil node, params,
   match node with
   | Some node =>
       match Option node with
       | Some o => RouterOption_Tag o
       | None => None
       end
   | None => None
   end).

(** ** The method wrappers, and further notions *)

(** GET will register a path with a handler for get requests. *)
Definition GET (r : Router) (path : string) (handle : option HandlerFunc)
    (optionFns : list RouterOptionFn) : Router * option error :=
  Handle r "GET" path handle optionFns.

(** POST will register a path with a handler for post requests. *)
Definition POST (r : Router) (path : string) (handle : option HandlerFunc)
    (optionFns : list RouterOptionFn) : Router * option error :=
  Handle r "POST" path handle optionFns.

(** DELETE will register a path with a handler for delete requests. *)
Definition DELETE (r : Router) (path : string) (handle : option HandlerFunc)
    (optionFns : list RouterOptionFn) : Router * option error :=
  Handle r "DELETE" path handle optionFns.

(** PUT will register a path with a handler for put requests. *)
Definition PUT (r : Router) (path : string) (handle : option HandlerFunc)
    (optionFns : list RouterOptionFn) : Router * option error :=
  Handle r "PUT" path handle optionFns.

(** PATCH will register a path with a handler for patch requests. *)
Definition PATCH (r : Router) (path : string) (handle : option HandlerFunc)
    (optionFns : list RouterOptionFn) : Router * option error :=
  Handle r "PATCH" path handle optionFns.

(** HEAD will register a path with a handler for head requests. *)
Definition HEAD (r : Router) (path : string) (handle : option HandlerFunc)
    (optionFns : list RouterOptionFn) : Router * option error :=
  Handle r "HEAD" path handle optionFns.

(** The node reached from [n] through the keys [ks]. *)
Fixpoint node_at (n : Node) (ks : list string) : option Node :=
  match ks with
  | [] => Some n
  | k :: rest =>
      match Children n !! k with
      | Some next => node_at next rest
      | None => None
      end
  end.

(** [path_exists], decided. *)
Fixpoint has_path (n : Node) (ks : list string) : bool :=
  match ks with
  | [] => true
  | k :: rest =>
      match Children n !! k with
      | Some next => has_path next rest
      | None => false
      end
  end.

(** The error of [add] read off the trie: two [*abc] segments are invalid;
    without one, the pattern is a duplicate when all its nodes exist; with
    one, only its first two nodes are looked at. *)
Definition add_outcome (n : Node) (slice : list string) : option error :=
  let stars := star_count slice in
  if (1 <? stars)%nat then Some ErrRouterSyntax
  else if has_path n (keys (if (0 <? stars)%nat then take 2 slice else slice))
  then Some ErrRouterDuplicate
  else if (0 <? stars)%nat && has_path n (keys (take 1 slice))
  then Some ErrRouterSyntax
  else None.

(** The params that the captures among the pattern segments [ps] take
    from the path segments [qs], one after the other. *)
Fixpoint captures (ps qs : list string) (params : RouterParams)
  : RouterParams :=
  match ps, qs with
  | p :: ps, q :: qs =>
      captures ps qs
        (if is_capture p then <[(add_key p).2 := q]> params else params)
  | _, _ => params
  end.

(** The node of the pattern segment [p] takes the path segment [q]: any
    text when the node is under the key ["*"] (a capture, or a bare [*]),
    the same text otherwise. *)
Definition taken_by (p q : string) : Prop :=
  (add_key p).1 = "*" \/ q = p.

(** Two nodes agree on all their fields but the children. *)
Definition same_fields (c c' : Node) : Prop :=
  Path c' = Path c /\ Key c' = Key c /\ Handler c' = Handler c /\
  Param c' = Param c /\ Star c' = Star c /\ Option c' = Option c.

(** What holds of a node [c] filed under the key [k] of a node [parent]:
    it knows its key, it has a parameter name only under the key ["*"], it
    has an option, it has a handler when it has no children, and it has
    the star flag only below a node without handler. *)
Definition tidy_child (parent : Node) (k : string) (c : Node) : Prop :=
  Key c = k /\
  (Param c <> "" -> k = "*") /\
  is_Some (Option c) /\
  (Children c = ∅ -> is_Some (Handler c)) /\
  (Star c = true -> Handler parent = None).

(** All the nodes below [n] are tidy. *)
Definition tidy_below (n : Node) : Prop :=
  forall ks parent k c,
    node_at n ks = Some parent -> Children parent !! k = Some c ->
    tidy_child parent k c.

(** A trie all of whose nodes are tidy, below a root without handler. *)
Definition tidy (n : Node) : Prop :=
  Handler n = None /\ tidy_below n.

(** A registration that succeeded: the method, the pattern, and the
    handler and the option that [Handle] passed to [add]. *)
Definition registration : Type :=
  string * string * HandlerFunc * RouterOption.

(** The routers that calls of [Handle] build from [New], with the
    registrations that succeeded. *)
Inductive built : Router -> list registration -> Prop :=
| built_New : built New []
| built_ok r regs method path handler optionFns :
    built r regs ->
    (Handle r method path handler optionFns).2 = None ->
    built (Handle r method path handler optionFns).1
          ((method, path, default Noop handler, new_option optionFns) :: regs)
| built_failed r regs method path handler optionFns err :
    built r regs ->
    (Handle r method path handler optionFns).2 = Some err ->
    built (Handle r method path handler optionFns).1 regs.

(** [later r r']: further calls of [Handle] lead from [r] to [r']. *)
Inductive later (r : Router) : Router -> Prop :=
| later_now : later r r
| later_Handle r' method path handler optionFns :
    later r r' -> later r (Handle r' method path handler optionFns).1.

(** A segment of a pattern that is plain text: no capture, and not a bare
    [*]. *)
Definition static (k : string) : Prop :=
  is_capture k = false /\ k <> "*".

(** The node [c] of a trie of the method [m] was made by one of the
    registrations [regs]: it has the pattern and the option of that
    registration, and no handler or the handler of that registration. *)
Definition made_by (regs : list registration) (m : string) (c : Node)
  : Prop :=
  exists h o,
    (m, Path c, h, o) ∈ regs /\ Option c = Some o /\
    (Handler c = None \/ Handler c = Some h).

(** The routers filled from [New] through the six method wrappers
    only. *)
Inductive wrapped : Router -> Prop :=
| wrapped_New : wrapped New
| wrapped_GET r path handle optionFns :
    wrapped r -> wrapped (GET r path handle optionFns).1
| wrapped_POST r path handle optionFns :
    wrapped r -> wrapped (POST r path handle optionFns).1
| wrapped_DELETE r path handle optionFns :
    wrapped r -> wrapped (DELETE r path handle optionFns).1
| wrapped_PUT r path handle optionFns :
    wrapped r -> wrapped (PUT r path handle optionFns).1
| wrapped_PATCH r path handle optionFns :
    wrapped r -> wrapped (PATCH r path handle optionFns).1
| wrapped_HEAD r path handle optionFns :
    wrapped r -> wrapped (HEAD r path handle optionFns).1.

(** The methods of the wrappers. *)
Definition wrapper_methods : list string :=
  ["GET"; "POST"; "DELETE"; "PUT"; "PATCH"; "HEAD"].

(** A search in the trie of the method alone, without fallback. *)
Definition Search_own (r : Router) (method path : string)
  : option Node * option RouterParams :=
  match trees r !! method with
  | Some t =>
      match find t path with
      | (Some node, params) => (Some node, Some params)
      | (None, _) => (None, None)
      end
  | None => (None, None)
  end.

(** A pattern whose wildcard, if it has one, is its last segment, after
    literal segments only. *)
Definition wildcard_last (pattern : string) : Prop :=
  star_count (segments pattern) = 0%nat \/
  exists lits s,
    segments pattern = (lits ++ [s])%list /\
    Forall (fun k => is_capture k = false) lits /\
    has_sigil "*" s = true.

(** Every node at which [find] can stop before the end of the path (a
    parameter name and the star flag) has a handler. *)
Definition wildcards_handled (t : Node) : Prop :=
  forall ks c,
    node_at t ks = Some c -> Star c = true -> Param c <> "" ->
    is_Some (Handler c).

(** A segment that begins with the sigil [c], whatever its length: the
    segments "carrying the sigil" in the words of the specification. *)
Definition begins_with (c : ascii) (k : string) : bool :=
  match k with
  | String c0 _ => Ascii.eqb c0 c
  | EmptyString => false
  end.

(** ** Lemmas on the model *)

(** Name the result of the recursive call of [add_loop] in the goal. *)
Ltac case_add_loop next err Hrec :=
  match goal with
  | |- context [add_loop ?p ?h ?o ?s ?rest ?d ?sp ?n] =>
      destruct (add_loop p h o s rest d sp n) as [next err] eqn:Hrec
  end.

Section AddLemmas.

Variables (path : string) (handler : option HandlerFunc)
          (opt : RouterOption).

Lemma set_child_same (current : Node) (k : string) (next : Node) :
  Children current !! k = Some next -> set_child current k next = current.
Proof.
  intros Hk. destruct current as [p ky ch h pa st o]; simpl in *.
  unfold set_child; simpl. by rewrite insert_id.
Qed.

Lemma add_scan_spec (slice : list string) (stars : nat) :
  (stars <= 1)%nat ->
  add_scan slice stars =
    if (1 <? stars + star_count slice)%nat then inl ErrRouterSyntax
    else inr (stars + star_count slice)%nat.
Proof.
  revert stars. induction slice as [|k rest IH]; intros stars Hle.
  - unfold star_count; simpl. rewrite Nat.add_0_r.
    destruct (Nat.ltb_spec 1 stars); [lia|done].
  - unfold star_count in *; simpl.
    destruct (has_sigil "*" k) eqn:Hk; simpl.
    + rewrite <- Nat.add_succ_comm.
      destruct (Nat.ltb_spec 1 (S stars)) as [H1|H1].
      * destruct (Nat.ltb_spec 1 (S stars + length (List.filter (has_sigil "*") rest)));
          [done|lia].
      * by rewrite IH by lia.
    + destruct (Nat.ltb_spec 1 stars) as [H1|H1]; [lia|].
      by rewrite IH by lia.
Qed.

(** The first loop of [add] fails exactly on two or more [*abc]
    segments, and otherwise leaves their number in [stars]. *)
Lemma add_scan_0 (slice : list string) :
  add_scan slice 0 =
    if (1 <? star_count slice)%nat then inl ErrRouterSyntax
    else inr (star_count slice).
Proof. by rewrite add_scan_spec by lia. Qed.

Lemma add_inv_init (stars : nat) (n : Node) : add_inv stars true false n.
Proof. split; [done|]. by rewrite andb_false_r. Qed.

Lemma add_inv_found stars duplicate starPrev current k next :
  add_inv stars duplicate starPrev current ->
  Children current !! k = Some next ->
  duplicate = true /\ add_inv stars duplicate true next.
Proof.
  intros [Hch _] Hk.
  assert (duplicate = true) as ->.
  { destruct duplicate; [done|]. rewrite Hch in Hk by done.
    by rewrite lookup_empty in Hk. }
  by repeat split.
Qed.

(** Below a node without children [add] only makes nodes, and
    succeeds. *)
Lemma add_loop_fresh stars slice duplicate starPrev current :
  Children current = ∅ ->
  (0 <? stars)%nat && starPrev = false ->
  slice <> [] \/ duplicate = false ->
  add_loop path handler opt stars slice duplicate starPrev current =
    (chain path handler opt stars slice current, None).
Proof.
  revert duplicate starPrev current.
  induction slice as [|k rest IH]; intros duplicate starPrev current Hch Hsp Hd.
  - destruct Hd as [Hd | ->]; done.
  - simpl. unfold fresh_node. destruct (add_key k) as [k' param]; simpl.
    rewrite Hsp, Hch, lookup_empty.
    by rewrite IH by auto.
Qed.

(** A registration that fails has changed nothing in the trie. *)
Lemma add_loop_error_unchanged stars slice duplicate starPrev current
    current' err :
  add_inv stars duplicate starPrev current ->
  add_loop path handler opt stars slice duplicate starPrev current =
    (current', Some err) ->
  current' = current.
Proof.
  revert duplicate starPrev current current'.
  induction slice as [|k rest IH];
    intros duplicate starPrev current current' Hinv; simpl.
  - unfold add_finish. destruct duplicate; by intros [= <-].
  - destruct (add_key k) as [k' param].
    destruct ((0 <? stars)%nat && starPrev) eqn:Hsp.
    + destruct (Children current !! k');
        [unfold add_finish; destruct duplicate|]; by intros [= <-].
    + destruct (Children current !! k') as [next|] eqn:Hk.
      * destruct (add_inv_found _ _ _ _ _ _ Hinv Hk) as [-> Hinv'].
        case_add_loop next' e Hrec.
        intros [= <- ->]. apply IH in Hrec as ->; [|done].
        by apply set_child_same.
      * rewrite add_loop_fresh by auto. done.
Qed.

(** A registration that succeeds leaves a node for every segment. *)
Lemma add_loop_success_path stars slice duplicate starPrev current current' :
  add_inv stars duplicate starPrev current ->
  add_loop path handler opt stars slice duplicate starPrev current =
    (current', None) ->
  path_exists current' (keys slice).
Proof.
  revert duplicate starPrev current current'.
  induction slice as [|k rest IH];
    intros duplicate starPrev current current' Hinv; simpl; [done|].
  destruct (add_key k) as [k' param]; simpl.
  destruct ((0 <? stars)%nat && starPrev) eqn:Hsp.
  - destruct Hinv as [_ ->]; [|done].
    by destruct (Children current !! k').
  - destruct (Children current !! k') as [next|] eqn:Hk.
    + destruct (add_inv_found _ _ _ _ _ _ Hinv Hk) as [-> Hinv'].
      case_add_loop next' e Hrec.
      intros [= <- ->]. simpl. rewrite lookup_insert_eq. by eapply IH.
    + case_add_loop next' e Hrec.
      intros [= <- ->]. simpl. rewrite lookup_insert_eq.
      eapply IH; [|done]. split; [done|]. by rewrite Hsp.
Qed.

(** When every segment already has its node, the loop reports a
    duplicate. *)
Lemma add_loop_existing stars slice starPrev current :
  path_exists current (keys slice) ->
  add_loop path handler opt stars slice true starPrev current =
    (current, Some ErrRouterDuplicate).
Proof.
  revert starPrev current.
  induction slice as [|k rest IH]; intros starPrev current; simpl; [done|].
  destruct (add_key k) as [k' param]; simpl.
  destruct (Children current !! k') as [next|] eqn:Hk; [|done].
  intros Hp. destruct ((0 <? stars)%nat && starPrev); [done|].
  rewrite IH by done. by rewrite set_child_same.
Qed.

End AddLemmas.

Lemma path_exists_app (n : Node) (ks1 ks2 : list string) :
  path_exists n (ks1 ++ ks2) -> path_exists n ks1.
Proof.
  revert n. induction ks1 as [|k ks1 IH]; intros n; simpl; [done|].
  destruct (Children n !! k); [apply IH|done].
Qed.

Lemma star_count_app (l1 l2 : list string) :
  star_count (l1 ++ l2) = (star_count l1 + star_count l2)%nat.
Proof. unfold star_count. by rewrite List.filter_app, length_app. Qed.

(** [add] as a whole: its three outcomes. *)
Lemma add_two_stars n path handler opt :
  (2 <= star_count (segments path))%nat ->
  add n path handler opt = (n, Some ErrRouterSyntax).
Proof.
  intros H. unfold add. rewrite add_scan_0.
  by destruct (Nat.ltb_spec 1 (star_count (segments path))); [|lia].
Qed.

Lemma add_loop_of_add n path handler opt :
  (star_count (segments path) <= 1)%nat ->
  add n path handler opt =
    add_loop path handler opt (star_count (segments path)) (segments path)
             true false n.
Proof.
  intros H. unfold add. rewrite add_scan_0.
  by destruct (Nat.ltb_spec 1 (star_count (segments path))); [lia|].
Qed.

Lemma add_error_unchanged n path handler opt n' err :
  add n path handler opt = (n', Some err) -> n' = n.
Proof.
  destruct (Nat.le_gt_cases (star_count (segments path)) 1) as [H|H].
  - rewrite add_loop_of_add by done.
    apply add_loop_error_unchanged, add_inv_init.
  - rewrite add_two_stars by lia. by intros [= <-].
Qed.

Lemma add_success n path handler opt n' :
  add n path handler opt = (n', None) ->
  (star_count (segments path) <= 1)%nat /\
  path_exists n' (keys (segments path)).
Proof.
  destruct (Nat.le_gt_cases (star_count (segments path)) 1) as [H|H].
  - rewrite add_loop_of_add by done. intros Hadd. split; [done|].
    eapply add_loop_success_path, Hadd. apply add_inv_init.
  - by rewrite add_two_stars by lia.
Qed.

Lemma add_existing n path handler opt :
  (star_count (segments path) <= 1)%nat ->
  path_exists n (keys (segments path)) ->
  add n path handler opt = (n, Some ErrRouterDuplicate).
Proof.
  intros H Hp. rewrite add_loop_of_add by done. by apply add_loop_existing.
Qed.

(** ** Counting nodes *)

Section NodeCount.

Lemma node_count_eq (n : Node) :
  node_count n = S (children_count (Children n)).
Proof. by destruct n. Qed.

Lemma children_count_insert (m : gmap string Node) k next :
  m !! k = None ->
  children_count (<[k := next]> m) = (node_count next + children_count m)%nat.
Proof.
  intros Hk. unfold children_count.
  rewrite map_fold_insert_L; [done| |done]. intros; lia.
Qed.

Lemma children_count_delete (m : gmap string Node) k next :
  m !! k = Some next ->
  children_count m = (node_count next + children_count (delete k m))%nat.
Proof.
  intros Hk. unfold children_count.
  rewrite (map_fold_delete_L _ _ k next m); [done| |done]. intros; lia.
Qed.

Lemma node_count_set_child_new current k next :
  Children current !! k = None ->
  node_count (set_child current k next) =
    (node_count current + node_count next)%nat.
Proof.
  intros Hk. rewrite (node_count_eq current), (node_count_eq (set_child _ _ _)).
  simpl. rewrite children_count_insert by done. lia.
Qed.

Lemma node_count_set_child_old current k old next :
  Children current !! k = Some old ->
  (node_count (set_child current k next) + node_count old)%nat =
    (node_count current + node_count next)%nat.
Proof.
  intros Hk. rewrite !(node_count_eq current), (node_count_eq (set_child _ _ _)).
  simpl. rewrite (children_count_delete _ _ _ Hk).
  rewrite <- insert_delete_eq.
  rewrite children_count_insert by apply lookup_delete_eq. lia.
Qed.

Lemma node_count_set_handler current handler :
  node_count (set_handler current handler) = node_count current.
Proof. by rewrite !node_count_eq. Qed.

Lemma node_count_pos (n : Node) : (0 < node_count n)%nat.
Proof. rewrite node_count_eq. lia. Qed.

(** [add] never removes a node, and a registration that succeeds has
    made one. *)
Lemma add_loop_node_count path handler opt stars slice duplicate starPrev
    current current' err :
  add_inv stars duplicate starPrev current ->
  add_loop path handler opt stars slice duplicate starPrev current =
    (current', err) ->
  (node_count current <= node_count current')%nat /\
  (err = None -> duplicate = true ->
   (node_count current < node_count current')%nat).
Proof.
  revert duplicate starPrev current current' err.
  induction slice as [|k rest IH];
    intros duplicate starPrev current current' err Hinv; simpl.
  - unfold add_finish. destruct duplicate; intros [= <- <-];
      rewrite ?node_count_set_handler; by split.
  - destruct (add_key k) as [k' param].
    destruct ((0 <? stars)%nat && starPrev) eqn:Hsp.
    + destruct Hinv as [_ ->]; [|done].
      destruct (Children current !! k'); intros [= <- <-]; by split.
    + destruct (Children current !! k') as [next|] eqn:Hk.
      * destruct (add_inv_found _ _ _ _ _ _ Hinv Hk) as [-> Hinv'].
        case_add_loop next' e Hrec.
        intros [= <- <-]. apply IH in Hrec as [Hle Hlt]; [|done].
        pose proof (node_count_set_child_old _ _ _ next' Hk).
        split; [lia|]. intros He _. specialize (Hlt He eq_refl). lia.
      * case_add_loop next' e Hrec.
        intros [= <- <-].
        rewrite node_count_set_child_new by done.
        pose proof (node_count_pos next'). split; [lia|]. intros; lia.
Qed.

Lemma add_success_node_count n path handler opt n' :
  add n path handler opt = (n', None) ->
  (node_count n < node_count n')%nat.
Proof.
  intros Hadd. destruct (add_success _ _ _ _ _ Hadd) as [Hs _].
  rewrite add_loop_of_add in Hadd by done.
  eapply add_loop_node_count in Hadd as [_ Hlt]; [|apply add_inv_init].
  by apply Hlt.
Qed.

End NodeCount.

(** ** [Handle] and [Search] *)

Lemma Handle_unfold r method path handler optionFns :
  Handle r method path handler optionFns =
    let res := add (tree_of r method) path (Some (default Noop handler))
                   (new_option optionFns) in
    ({| trees := <[method := res.1]> (trees r) |}, res.2).
Proof.
  unfold Handle, tree_of.
  replace (match handler with Some h => h | None => Noop end)
    with (default Noop handler) by by destruct handler.
  destruct (trees r !! method) as [t|] eqn:Ht; simpl.
  - rewrite Ht. by destruct (add _ _ _ _).
  - rewrite lookup_insert_eq. destruct (add _ _ _ _); simpl.
    by rewrite insert_insert_eq.
Qed.

Lemma segments_cons (path : string) :
  exists k rest, segments path = k :: rest.
Proof.
  unfold segments. generalize (strings.TrimPrefix path "/"). intros s.
  destruct s as [|c s]; simpl; [by eauto|].
  destruct (Ascii.eqb c "/"); [by eauto|].
  destruct (strings.SplitSlash s); by eauto.
Qed.

Lemma find_new_root (path : string) : find new_root path = (None, ∅).
Proof.
  unfold find. destruct (segments_cons path) as (k & rest & ->). done.
Qed.

Lemma Search_is_policy r method path :
  Search r method path = Search_policy r method path.
Proof.
  unfold Search, Search_policy, found.
  destruct (String.eqb_spec method MethodAny) as [->|Hne]; simpl.
  - destruct (trees r !! MethodAny) as [a|]; [|done].
    destruct (find a path) as [[node|] params]; simpl; by rewrite ?orb_true_r.
  - destruct (trees r !! method) as [t|].
    + destruct (find t path) as [[node|] params]; simpl; [done|].
      destruct (trees r !! MethodAny) as [a|]; [|done].
      by destruct (find a path).
    + destruct (trees r !! MethodAny) as [a|]; [|done].
      destruct (find a path) as [[node|] params]; simpl; done.
Qed.

Lemma tree_of_Handle r method path handler optionFns :
  tree_of (Handle r method path handler optionFns).1 method =
    (add (tree_of r method) path (Some (default Noop handler))
         (new_option optionFns)).1.
Proof. rewrite Handle_unfold. unfold tree_of; simpl. by rewrite lookup_insert_eq. Qed.

Lemma Handle_error r method path handler optionFns :
  (Handle r method path handler optionFns).2 =
    (add (tree_of r method) path (Some (default Noop handler))
         (new_option optionFns)).2.
Proof. by rewrite Handle_unfold. Qed.

(** A registration that fails leaves the trie of its method as [Handle]
    found or made it. *)
Lemma Handle_failure_tree r method path handler optionFns err :
  (Handle r method path handler optionFns).2 = Some err ->
  trees (Handle r method path handler optionFns).1 =
    <[method := tree_of r method]> (trees r).
Proof.
  rewrite Handle_unfold; simpl.
  destruct (add _ _ _ _) as [t e] eqn:Hadd; simpl. intros ->.
  by apply add_error_unchanged in Hadd as ->.
Qed.

Lemma Handle_failure_same r method path handler optionFns err :
  (Handle r method path handler optionFns).2 = Some err ->
  is_Some (trees r !! method) ->
  (Handle r method path handler optionFns).1 = r.
Proof.
  intros Herr [t Ht]. apply Handle_failure_tree in Herr.
  destruct (Handle _ _ _ _ _).1 as [ts], r as [ts0]; simpl in *. subst ts.
  unfold tree_of; simpl. rewrite Ht; simpl. by rewrite insert_id.
Qed.

(** ** The tests of the repository, on the model *)

(** [TestRouter]: the errors of its registrations and the outcomes of its
    searches. *)
Example TestRouter :
  search_outcome (Handle New MethodAny "/any" None []).1 "GET" "/any"
    = (true, Some ∅, None) /\
  let '(r, errs) :=
    Handle_all New
      [ (MethodAny, "/any", []);
        ("GET", "/", [Tag (Some "a")]);
        ("GET", "/", []);
        ("GET", "/posts2", []);
        ("GET", "/posts2/*id", [Tag (Some "idstar")]);
        ("GET", "/posts/*id", [Tag (Some "idstar")]);
        ("GET", "/posts/*id/*xx", []);
        ("GET", "/posts/*id", []);
        ("POST", "/posts", []);
        ("PATCH", "/posts/:id", []);
        ("PUT", "/posts/:id", []);
        ("PUT", "/posts/:id", []);
        ("PUT", "/posts/:id/:name", []);
        ("PUT", "/posts/:id:name", []);
        ("DELETE", "/posts/:id", []);
        ("GET", "/error", []) ] in
  errs =
    [ None; None; Some ErrRouterDuplicate; None; Some ErrRouterSyntax; None;
      Some ErrRouterSyntax; Some ErrRouterDuplicate; None; None; None;
      Some ErrRouterDuplicate; None; Some ErrRouterDuplicate; None; None ] /\
  search_outcome r "GET" "/" = (true, Some ∅, Some "a") /\
  search_outcome r "GET" "/posts"
    = (true, Some {[ "id" := "/" ]}, Some "idstar") /\
  search_outcome r "GET" "/posts/123"
    = (true, Some {[ "id" := "/123" ]}, Some "idstar") /\
  search_outcome r "GET" "/posts/123/456"
    = (true, Some {[ "id" := "/123/456" ]}, Some "idstar") /\
  search_outcome r "GET" "/others" = (false, Some ∅, None) /\
  search_outcome r "GET" "/any" = (true, Some ∅, None) /\
  search_outcome r "POST" "/any" = (true, Some ∅, None).
Proof. vm_compute. by repeat split. Qed.

(** [TestDuplicate], [TestInvalidSyntax] and the two requests of
    [TestStarName]. *)
Example TestDuplicate_TestInvalidSyntax_TestStarName :
  (Handle_all New [("GET", "/", []); ("GET", "/", []);
                   ("GET", "/:id", []); ("GET", "/:id", [])]).2
    = [None; Some ErrRouterDuplicate; None; Some ErrRouterDuplicate] /\
  (Handle New "GET" "/*a/*b" None []).2 = Some ErrRouterSyntax /\
  (Search (Handle New "GET" "/*action" None []).1 "GET" "/hello").2
    = Some {[ "action" := "/hello" ]} /\
  (Search (Handle New "GET" "/*action" None []).1 "GET" "/hello/world").2
    = Some {[ "action" := "/hello/world" ]}.
Proof. vm_compute. by repeat split. Qed.

(** ** Registration: the errors of [Handle] *)

(** C6, as stated, fails: a segment that is the sigil alone is not
    counted.  [/a/*/*c], [/*/*b] and [/*/*] each have two segments that
    begin with the [*] sigil, and [Handle] registers each of them into a
    new router without error. *)
Lemma Handle_two_stars_counterexample :
  Forall (fun p =>
            length (List.filter (begins_with "*") (segments p)) = 2%nat /\
            (star_count (segments p) <= 1)%nat /\
            (Handle New "GET" p None []).2 = None)
         ["/a/*/*c"; "/*/*b"; "/*/*"].
Proof. repeat constructor; vm_compute; lia. Qed.

(** C6, amended: the segments that count are the [*name] segments, those
    of two characters or more that begin with [*]; for every method and
    every state of the router, registering a pattern with two or more of
    them, as in [/a/*b/*c], returns the invalid-syntax error. *)
Theorem Handle_two_stars_invalid :
  (forall k,
     has_sigil "*" k = true <->
     exists c name, k = String "*" (String c name)) /\
  (forall r method path handler optionFns,
     (2 <= star_count (segments path))%nat ->
     (Handle r method path handler optionFns).2 = Some ErrRouterSyntax).
Proof.
  split.
  - intros k. unfold has_sigil. split.
    + destruct k as [|a [|c name]]; simpl; [done|done|].
      destruct (Ascii.eqb_spec a "*") as [->|]; [eauto|done].
    + by intros (c & name & ->).
  - intros r method path handler optionFns H.
    rewrite Handle_error. by rewrite add_two_stars.
Qed.

Lemma Handle_two_stars_invalid_witness :
  (2 <= star_count (segments "/a/*b/*c"))%nat /\
  (Handle (Handle New "GET" "/a/:x" None []).1 "GET" "/a/*b/*c"
          (Some (Func "h")) []).2 = Some ErrRouterSyntax.
Proof.
  split; [vm_compute; lia|].
  apply (proj2 Handle_two_stars_invalid). vm_compute; lia.
Defined.

(** C3, as stated, fails: after [/posts2], registering [/posts2/*id] makes
    no node (the router is left as it was) and yet the error is the
    invalid-syntax one, not the duplicate one. *)
Lemma Handle_duplicate_counterexample :
  let r := (Handle New "GET" "/posts2" None []).1 in
  let res := Handle r "GET" "/posts2/*id" None [] in
  res.1 = r /\
  node_count (tree_of res.1 "GET") = node_count (tree_of r "GET") /\
  res.2 = Some ErrRouterSyntax /\
  res.2 <> Some ErrRouterDuplicate.
Proof. vm_compute. by repeat split. Qed.

(** C3, amended: [Handle] returns the duplicate error exactly when the
    registration makes no node in the trie of its method and is not
    rejected as invalid syntax.  It returns it whenever the pattern has at
    most one [*name] segment and every segment already has its node; so
    registering a pair a second time, or a pattern whose segments are a
    prefix of those of a registered pattern, is a duplicate. *)
Theorem Handle_duplicate r method path handler optionFns :
  ((Handle r method path handler optionFns).2 = Some ErrRouterDuplicate <->
     node_count (tree_of (Handle r method path handler optionFns).1 method) =
       node_count (tree_of r method) /\
     (Handle r method path handler optionFns).2 <> Some ErrRouterSyntax) /\
  ((star_count (segments path) <= 1)%nat ->
   path_exists (tree_of r method) (keys (segments path)) ->
   (Handle r method path handler optionFns).2 = Some ErrRouterDuplicate) /\
  ((Handle r method path handler optionFns).2 = None ->
   forall handler' optionFns',
     (Handle (Handle r method path handler optionFns).1 method path
             handler' optionFns').2 = Some ErrRouterDuplicate) /\
  ((Handle r method path handler optionFns).2 = None ->
   forall path' more handler' optionFns',
     segments path = (segments path' ++ more)%list ->
     (Handle (Handle r method path handler optionFns).1 method path'
             handler' optionFns').2 = Some ErrRouterDuplicate).
Proof.
  assert (Hprefix :
    (Handle r method path handler optionFns).2 = None ->
    forall path' more handler' optionFns',
      segments path = (segments path' ++ more)%list ->
      (Handle (Handle r method path handler optionFns).1 method path'
              handler' optionFns').2 = Some ErrRouterDuplicate).
  { intros Hok path' more handler' optionFns' Hseg.
    rewrite (Handle_error (Handle _ _ _ _ _).1), tree_of_Handle.
    rewrite Handle_error in Hok.
    destruct (add (tree_of r method) path _ _) as [t e] eqn:Hadd.
    simpl in *; subst e. apply add_success in Hadd as [Hs Hp].
    rewrite Hseg, star_count_app in Hs.
    unfold keys in Hp. rewrite Hseg, map_app in Hp.
    apply path_exists_app in Hp.
    rewrite add_existing; [done|lia|done]. }
  split; [split|split; [|split]].
  - intros Herr. split; [|by rewrite Herr].
    rewrite tree_of_Handle. rewrite Handle_error in Herr.
    destruct (add _ _ _ _) as [t e] eqn:Hadd; simpl in *; subst e.
    by apply add_error_unchanged in Hadd as ->.
  - rewrite tree_of_Handle, Handle_error.
    destruct (add _ _ _ _) as [t [[]|]] eqn:Hadd; simpl; intros [Hc Hs];
      [done|done|].
    apply add_success_node_count in Hadd. lia.
  - intros Hs Hp. rewrite Handle_error. by rewrite add_existing.
  - intros Hok handler' optionFns'.
    apply (Hprefix Hok path []). by rewrite app_nil_r.
  - done.
Qed.

Lemma Handle_duplicate_witness :
  (Handle (Handle New "GET" "/posts/:id" None []).1 "GET" "/posts"
          (Some (Func "h")) []).2 = Some ErrRouterDuplicate.
Proof.
  apply (proj2 (proj2 (proj2
           (Handle_duplicate New "GET" "/posts/:id" None [])))
           eq_refl "/posts" [":id"]).
  reflexivity.
Defined.

(** C10, as stated, fails: a first registration under ["ANY"] that is
    rejected leaves an empty root behind, and a search that returned no
    node and a nil map before returns no node and an empty map after. *)
Lemma Handle_failure_counterexample :
  let res := Handle New MethodAny "/*a/*b" None [] in
  res.2 = Some ErrRouterSyntax /\
  trees res.1 = {[ MethodAny := new_root ]} /\
  Search New MethodAny "/x" = (None, None) /\
  Search res.1 MethodAny "/x" = (None, Some ∅) /\
  Search res.1 MethodAny "/x" <> Search New MethodAny "/x".
Proof. vm_compute. by repeat split. Qed.

(** C10, amended: whenever [Handle] returns an error, every trie the
    router had is left as it was (no node added, no handler, parameter
    name or tag changed), and the only change is the empty root made for a
    method that had no trie.  Every later search returns the same node and
    the same bindings as before; it returns exactly the same result
    unless the failed call was the first registration under ["ANY"], where
    a miss returns an empty map instead of a nil one. *)
Theorem Handle_failure_atomic r method path handler optionFns err :
  (Handle r method path handler optionFns).2 = Some err ->
  (forall m t, trees r !! m = Some t ->
     trees (Handle r method path handler optionFns).1 !! m = Some t) /\
  (forall m, trees r !! m = None -> m <> method ->
     trees (Handle r method path handler optionFns).1 !! m = None) /\
  (trees r !! method = None ->
     trees (Handle r method path handler optionFns).1 !! method
       = Some new_root) /\
  (forall m q,
     (Search (Handle r method path handler optionFns).1 m q).1
       = (Search r m q).1 /\
     default ∅ (Search (Handle r method path handler optionFns).1 m q).2
       = default ∅ (Search r m q).2) /\
  (method <> MethodAny \/ is_Some (trees r !! MethodAny) ->
   forall m q,
     Search (Handle r method path handler optionFns).1 m q = Search r m q).
Proof.
  intros Herr. pose proof (Handle_failure_tree _ _ _ _ _ _ Herr) as Htrees.
  destruct (trees r !! method) as [t0|] eqn:Hm.
  { rewrite (Handle_failure_same _ _ _ _ _ _ Herr) by eauto.
    repeat split; done. }
  set (r' := (Handle r method path handler optionFns).1) in *.
  assert (Hself : trees r' !! method = Some new_root).
  { rewrite Htrees, lookup_insert_eq. unfold tree_of. by rewrite Hm. }
  assert (Hother : forall m, m <> method -> trees r' !! m = trees r !! m).
  { intros m Hne. rewrite Htrees. by rewrite lookup_insert_ne. }
  split; [|split; [|split; [|split]]].
  - intros m t Ht. rewrite Hother; [done|]. intros ->. congruence.
  - intros m Hnone Hne. by rewrite Hother.
  - done.
  - intros m q. rewrite !Search_is_policy. unfold Search_policy.
    destruct (decide (method = MethodAny)) as [->|Hany].
    + rewrite Hself, Hm, find_new_root.
      destruct (decide (m = MethodAny)) as [->|Hmne].
      * rewrite Hself, Hm, find_new_root. done.
      * rewrite Hother by done. destruct (trees r !! m) as [t|]; [|done].
        by destruct (find t q) as [[node|] params].
    + rewrite (Hother MethodAny) by done.
      destruct (decide (m = method)) as [->|Hmne].
      * rewrite Hself, Hm, find_new_root. done.
      * by rewrite Hother.
  - intros [Hany|[a Ha]] m q.
    + rewrite !Search_is_policy. unfold Search_policy.
      rewrite (Hother MethodAny) by done.
      destruct (decide (m = method)) as [->|Hmne].
      * rewrite Hself, Hm, find_new_root. done.
      * by rewrite Hother.
    + assert (method <> MethodAny) as Hany by (intros ->; congruence).
      rewrite !Search_is_policy. unfold Search_policy.
      rewrite (Hother MethodAny) by done.
      destruct (decide (m = method)) as [->|Hmne].
      * rewrite Hself, Hm, find_new_root. done.
      * by rewrite Hother.
Qed.

Lemma Handle_failure_atomic_witness :
  let r := (Handle New "GET" "/posts2" None []).1 in
  Search (Handle r "GET" "/posts2/*id" None []).1 "GET" "/posts2/7"
    = Search r "GET" "/posts2/7".
Proof.
  intros r.
  apply (proj2 (proj2 (proj2 (proj2
           (Handle_failure_atomic r "GET" "/posts2/*id" None []
              ErrRouterSyntax eq_refl))))).
  left. discriminate.
Defined.

(** ** Resolution: the method fallback of [Search] *)

(** C4: [Search] follows the fallback policy.  A trie of the exact method
    that matches gives the result; when it misses and there is an ["ANY"]
    trie, the result is the one of the ["ANY"] trie; without a trie of the
    exact method the ["ANY"] trie is resolved directly; without either
    there is no match.  With only [/x] registered under ["ANY"], both
    [GET /x] and [POST /x] resolve to its handler, and a [GET] trie that
    misses [/y] falls back to the ["ANY"] route for [/y]. *)
Theorem Search_fallback :
  (forall r method path, Search r method path = Search_policy r method path) /\
  (forall r method path t node params,
     trees r !! method = Some t -> find t path = (Some node, params) ->
     Search r method path = (Some node, Some params)) /\
  (forall r method path t params a,
     trees r !! method = Some t -> find t path = (None, params) ->
     trees r !! MethodAny = Some a ->
     Search r method path = found (find a path)) /\
  (forall r method path a,
     trees r !! method = None -> trees r !! MethodAny = Some a ->
     Search r method path = found (find a path)) /\
  (forall r method path,
     trees r !! method = None -> trees r !! MethodAny = None ->
     Search r method path = (None, None)) /\
  (let r := (Handle New MethodAny "/x" (Some (Func "h")) []).1 in
   exists node,
     Handler node = Some (Func "h") /\
     Search r "GET" "/x" = (Some node, Some ∅) /\
     Search r "POST" "/x" = (Some node, Some ∅)) /\
  (let r := (Handle (Handle New "GET" "/a" (Some (Func "g")) []).1
                    MethodAny "/y" (Some (Func "h")) []).1 in
   exists node,
     Handler node = Some (Func "h") /\
     Search r "GET" "/y" = (Some node, Some ∅)).
Proof.
  split; [apply Search_is_policy|].
  split; [|split; [|split; [|split; [|split]]]].
  - intros r method path t node params Ht Hf.
    rewrite Search_is_policy. unfold Search_policy. by rewrite Ht, Hf.
  - intros r method path t params a Ht Hf Ha.
    rewrite Search_is_policy. unfold Search_policy. by rewrite Ht, Hf, Ha.
  - intros r method path a Ht Ha.
    rewrite Search_is_policy. unfold Search_policy. by rewrite Ht, Ha.
  - intros r method path Ht Ha.
    rewrite Search_is_policy. unfold Search_policy. by rewrite Ht, Ha.
  - eexists. split; [|split]; [|vm_compute; reflexivity..]. reflexivity.
  - eexists. split; [|vm_compute; reflexivity]. reflexivity.
Qed.

Lemma Search_fallback_witness :
  let r := (Handle (Handle New "GET" "/a" (Some (Func "g")) []).1
                   MethodAny "/y" (Some (Func "h")) []).1 in
  exists a, Search r "POST" "/y" = found (find a "/y").
Proof.
  intros r. eexists.
  apply (proj1 (proj2 (proj2 (proj2 Search_fallback))) r "POST" "/y");
    vm_compute; reflexivity.
Defined.

(** ** Resolution: the descent of [find] *)

Lemma find_is_find_from n path : find n path = find_from n ∅ (segments path).
Proof. done. Qed.

Lemma find_loop_cons cur params k rest :
  find_loop cur params (k :: rest) =
    match find_child cur k with
    | Some next => find_enter next params k rest
    | None => Returned None params
    end.
Proof. done. Qed.

Lemma find_from_nil cur params : find_from cur params [] = find_finish cur params.
Proof. done. Qed.

Lemma find_from_cons cur params k rest :
  find_from cur params (k :: rest) =
    match find_child cur k with
    | Some next =>
        match find_enter next params k rest with
        | Returned node params => (node, params)
        | Fell_through cur params => find_finish cur params
        end
    | None => (None, params)
    end.
Proof. unfold find_from. rewrite find_loop_cons. by destruct (find_child cur k). Qed.

Section Chain.

Variables (path : string) (handler : option HandlerFunc)
          (opt : RouterOption) (stars : nat).

Lemma chain_cons k rest current :
  chain path handler opt stars (k :: rest) current =
    set_child current (add_key k).1
      (chain path handler opt stars rest (fresh_node path opt stars k)).
Proof. done. Qed.

Lemma chain_Param slice current :
  Param (chain path handler opt stars slice current) = Param current.
Proof. by destruct slice. Qed.

Lemma chain_Star slice current :
  Star (chain path handler opt stars slice current) = Star current.
Proof. by destruct slice. Qed.

Lemma chain_Path slice current :
  Path (chain path handler opt stars slice current) = Path current.
Proof. by destruct slice. Qed.

Lemma chain_Option slice current :
  Option (chain path handler opt stars slice current) = Option current.
Proof. by destruct slice. Qed.

(** In a chain the only child of a node is the node of the next
    segment. *)
Lemma find_child_chain k rest current q :
  Children current = ∅ ->
  find_child (chain path handler opt stars (k :: rest) current) q =
    if decide (q = (add_key k).1)
    then Some (chain path handler opt stars rest (fresh_node path opt stars k))
    else if decide ((add_key k).1 = "*")
    then Some (chain path handler opt stars rest (fresh_node path opt stars k))
    else None.
Proof.
  intros Hch. rewrite chain_cons. unfold find_child; simpl. rewrite Hch.
  destruct (decide (q = (add_key k).1)) as [->|Hq].
  - by rewrite lookup_insert_eq.
  - rewrite lookup_insert_ne by done. rewrite lookup_empty.
    destruct (decide ((add_key k).1 = "*")) as [->|Hk].
    + by rewrite lookup_insert_eq.
    + rewrite lookup_insert_ne by done. by rewrite lookup_empty.
Qed.

End Chain.

Section ChainNoStar.

Variables (path : string) (h : HandlerFunc) (opt : RouterOption).

Lemma add_key_literal k : is_capture k = false -> add_key k = (k, "").
Proof. unfold add_key, is_capture. by intros ->. Qed.

Lemma add_key_capture k : is_capture k = true -> (add_key k).1 = "*".
Proof. unfold add_key, is_capture. by intros ->. Qed.

(** Entering a node of a pattern without [*name] segment goes on with the
    rest of the path. *)
Lemma find_enter_chain_no_star slice k params q rest :
  exists params',
    find_enter
      (chain path (Some h) opt 0 slice (fresh_node path opt 0 k))
      params q rest =
    find_loop
      (chain path (Some h) opt 0 slice (fresh_node path opt 0 k))
      params' rest.
Proof.
  unfold find_enter. rewrite chain_Param, chain_Star; simpl.
  destruct (negb _); eauto.
Qed.

(** The star fix does nothing in a pattern without [*name] segment. *)
Lemma find_star_fix_chain_no_star p ps current params :
  Children current = ∅ ->
  find_star_fix (chain path (Some h) opt 0 (p :: ps) current) params =
    (chain path (Some h) opt 0 (p :: ps) current, params).
Proof.
  intros Hch. unfold find_star_fix. rewrite chain_cons; simpl. rewrite Hch.
  destruct (decide ((add_key p).1 = "*")) as [->|Hk].
  - rewrite lookup_insert_eq. by rewrite chain_Star.
  - rewrite lookup_insert_ne by done. by rewrite lookup_empty.
Qed.

(** A path with fewer segments than the one pattern of a trie, a pattern
    without [*name] segment, finds nothing. *)
Lemma find_from_chain_short ps qs current params :
  Children current = ∅ -> Handler current = None ->
  (length qs < length ps)%nat ->
  exists params',
    find_from (chain path (Some h) opt 0 ps current) params qs
      = (None, params').
Proof.
  revert qs current params.
  induction ps as [|p ps IH]; intros qs current params Hch Hh Hlen; simpl in Hlen;
    [lia|].
  destruct qs as [|q qs].
  - rewrite find_from_nil. unfold find_finish.
    rewrite find_star_fix_chain_no_star by done.
    rewrite chain_cons; simpl. rewrite Hh. eauto.
  - rewrite find_from_cons, find_child_chain by done.
    simpl in Hlen.
    destruct (find_enter_chain_no_star ps p params q qs) as [params' Henter].
    repeat case_decide; [| |by eauto]; rewrite Henter;
      apply (IH qs _ params'); simpl; (done || lia).
Qed.

(** A path that fits the one pattern of a trie, a pattern without [*name]
    segment, finds the node of its last segment, with the handler. *)
Lemma find_from_chain_fits ps qs current params :
  Children current = ∅ -> Forall2 fits ps qs ->
  exists node params',
    find_from (chain path (Some h) opt 0 ps current) params qs
      = (Some node, params') /\
    Handler node = Some h /\
    (ps <> [] \/ Path current = path -> Path node = path) /\
    (ps <> [] \/ Option current = Some opt -> Option node = Some opt).
Proof.
  intros Hch Hfits. revert current params Hch.
  induction Hfits as [|p q ps qs Hpq Hfits IH]; intros current params Hch.
  - exists (set_handler current (Some h)), params.
    unfold find_from, find_finish, find_star_fix; simpl. rewrite Hch.
    rewrite lookup_empty; simpl. repeat split; by intros [|].
  - rewrite find_from_cons, find_child_chain by done.
    destruct (find_enter_chain_no_star ps p params q qs) as [params' Henter].
    assert (Hfound : q = (add_key p).1 \/ (add_key p).1 = "*").
    { destruct (is_capture p) eqn:Hcap.
      - right. by apply add_key_capture.
      - left. destruct Hpq as [Hc | ->]; [congruence|]. by rewrite add_key_literal. }
    destruct (IH (fresh_node path opt 0 p) params' eq_refl)
      as (node & params'' & Hf & Hh & Hpath & Hopt).
    exists node, params''. unfold find_from in Hf.
    split; [|split; [done|split; intros _; [apply Hpath|apply Hopt]; by right]].
    repeat case_decide; try (rewrite Henter; exact Hf).
    by destruct Hfound.
Qed.

End ChainNoStar.

(** The first registration of a method hangs the chain of the pattern
    below a new root. *)
Lemma Handle_first r method path handler optionFns :
  trees r !! method = None ->
  (star_count (segments path) <= 1)%nat ->
  Handle r method path handler optionFns =
    ({| trees :=
          <[method := chain path (Some (default Noop handler))
                        (new_option optionFns) (star_count (segments path))
                        (segments path) new_root]> (trees r) |}, None).
Proof.
  intros Hm Hs. rewrite Handle_unfold. unfold tree_of. rewrite Hm; simpl.
  rewrite add_loop_of_add by done.
  rewrite add_loop_fresh; [done|done|by rewrite andb_false_r|].
  left. by destruct (segments_cons path) as (k & rest & ->).
Qed.

(** A search that hits in the trie of the exact method returns that hit. *)
Lemma Search_hit r method q t node params :
  trees r !! method = Some t -> find t q = (Some node, params) ->
  Search r method q = (Some node, Some params).
Proof.
  intros Ht Hf. rewrite Search_is_policy. unfold Search_policy.
  by rewrite Ht, Hf.
Qed.

(** A search that misses in the trie of the exact method, and in the one of
    ["ANY"] if there is one, returns no node. *)
Lemma Search_miss r method q t :
  trees r !! method = Some t -> (find t q).1 = None ->
  (forall a, trees r !! MethodAny = Some a -> (find a q).1 = None) ->
  (Search r method q).1 = None.
Proof.
  intros Ht Hf Hany. rewrite Search_is_policy. unfold Search_policy.
  rewrite Ht. destruct (find t q) as [[node|] params]; simpl in *; [done|].
  destruct (trees r !! MethodAny) as [a|]; simpl; [|done]. by apply Hany.
Qed.

(** C8: at every depth of the descent, a child under the exact text of the
    segment is the one taken, and the capture child (the key ["*"]) is
    taken only when there is no such child; without either the descent
    stops with no match.  So with [/posts/new] and [/posts/:id] registered
    (in either order), [/posts/new] resolves to the handler of
    [/posts/new] with no parameter, and [/posts/123] to the handler of
    [/posts/:id] with [id = "123"]. *)
Theorem find_prefers_literal :
  (forall cur params k rest next,
     Children cur !! k = Some next ->
     find_loop cur params (k :: rest) = find_enter next params k rest) /\
  (forall cur params k rest capture,
     Children cur !! k = None -> Children cur !! "*" = Some capture ->
     find_loop cur params (k :: rest) = find_enter capture params k rest) /\
  (forall cur params k rest,
     Children cur !! k = None -> Children cur !! "*" = None ->
     find_loop cur params (k :: rest) = Returned None params) /\
  (forall r,
     r = (Handle (Handle New "GET" "/posts/new" (Some (Func "new")) []).1
                 "GET" "/posts/:id" (Some (Func "show")) []).1 \/
     r = (Handle (Handle New "GET" "/posts/:id" (Some (Func "show")) []).1
                 "GET" "/posts/new" (Some (Func "new")) []).1 ->
     (exists node,
        Search r "GET" "/posts/new" = (Some node, Some ∅) /\
        Handler node = Some (Func "new") /\ Path node = "/posts/new") /\
     (exists node,
        Search r "GET" "/posts/123" = (Some node, Some {[ "id" := "123" ]}) /\
        Handler node = Some (Func "show") /\ Path node = "/posts/:id")).
Proof.
  split; [|split; [|split]].
  - intros cur params k rest next Hk.
    rewrite find_loop_cons. unfold find_child. by rewrite Hk.
  - intros cur params k rest capture Hk Hstar.
    rewrite find_loop_cons. unfold find_child. by rewrite Hk, Hstar.
  - intros cur params k rest Hk Hstar.
    rewrite find_loop_cons. unfold find_child. by rewrite Hk, Hstar.
  - intros r [->| ->]; (split; eexists; (split; [vm_compute; reflexivity|]));
      by split.
Qed.

Lemma find_prefers_literal_witness :
  let posts :=
    tree_of (Handle (Handle New "GET" "/new" (Some (Func "new")) []).1
                    "GET" "/:id" (Some (Func "show")) []).1 "GET" in
  exists next,
    Handler next = Some (Func "new") /\
    find_loop posts ∅ ["new"] = find_enter next ∅ "new" [].
Proof.
  intros posts. eexists. split; [|
    apply (proj1 find_prefers_literal posts ∅ "new" []); vm_compute; reflexivity].
  reflexivity.
Defined.

(** Where the handler check of [find] is reached: a resolution whose loop
    runs out of segments and ends on a node without handler is no match,
    [find] returns no node.  (The node it ends on is the one after the fix
    for [/*abc]: the child of a trailing wildcard, if the node reached has
    one.)  A trie with one pattern without [*name] segment matches no path
    with fewer segments than the pattern; with only [/posts/:id]
    registered, [/posts] is no match. *)
Theorem find_no_handler_no_match :
  (forall n path cur params,
     find_loop n ∅ (segments path) = Fell_through cur params ->
     Handler (find_star_fix cur params).1 = None ->
     find n path = (None, (find_star_fix cur params).2)) /\
  (forall n path cur params,
     find_loop n ∅ (segments path) = Fell_through cur params ->
     Handler cur = None -> Children cur !! "*" = None ->
     find n path = (None, params)) /\
  (forall method pattern handler optionFns path,
     star_count (segments pattern) = 0%nat ->
     (length (segments path) < length (segments pattern))%nat ->
     (Search (Handle New method pattern handler optionFns).1 method path).1
       = None) /\
  Search (Handle New "GET" "/posts/:id" (Some (Func "show")) []).1
         "GET" "/posts" = (None, None).
Proof.
  split; [|split; [|split]].
  - intros n path cur params Hloop Hh. unfold find. rewrite Hloop.
    unfold find_finish. destruct (find_star_fix cur params) as [c p].
    simpl in *. by rewrite Hh.
  - intros n path cur params Hloop Hh Hstar. unfold find. rewrite Hloop.
    unfold find_finish, find_star_fix. by rewrite Hstar, Hh.
  - intros method pattern handler optionFns path Hs Hlen.
    rewrite Handle_first by (done || lia). rewrite Hs.
    destruct (find_from_chain_short pattern (default Noop handler)
                (new_option optionFns) (segments pattern) (segments path)
                new_root ∅ eq_refl eq_refl Hlen) as [params Hf].
    eapply Search_miss; simpl.
    + apply lookup_insert_eq.
    + rewrite find_is_find_from. by rewrite Hf.
    + intros a Ha. destruct (decide (method = MethodAny)) as [->|Hne].
      * rewrite lookup_insert_eq in Ha. simplify_eq.
        rewrite find_is_find_from. by rewrite Hf.
      * rewrite lookup_insert_ne in Ha by done. by rewrite lookup_empty in Ha.
  - vm_compute. reflexivity.
Qed.

Lemma find_no_handler_no_match_witness :
  (Search (Handle New "PUT" "/posts/:id/:name" None []).1 "PUT" "/posts/7").1
    = None.
Proof.
  apply (proj1 (proj2 (proj2 find_no_handler_no_match))); vm_compute; lia.
Defined.

(** C5 fails on the code for a pattern with a [:name] capture before its
    trailing wildcard.  [/a/:b/*c] is registered into a new router; the
    resolution of [/a/x] uses up both segments of the path and lands on
    the node of [:b], which has no handler and is there only as a prefix
    of the pattern (the node of [*c] is its child).  Every node made for a
    pattern with a [*name] segment carries the star flag, so [find]
    returns the node of [:b] from inside its loop, before the handler
    check: the resolution is a match, with [b] bound to ["/x"]. *)
Theorem find_prefix_node_without_handler :
  let res := Handle New "GET" "/a/:b/*c" (Some (Func "h")) [] in
  res.2 = None /\
  segments "/a/x" = ["a"; "x"] /\
  exists node,
    node_at (tree_of res.1 "GET") ["a"; "*"] = Some node /\
    Handler node = None /\
    is_Some (Children node !! "*") /\
    find_loop (tree_of res.1 "GET") ∅ (segments "/a/x")
      = Returned (Some node) {[ "b" := "/x" ]} /\
    find (tree_of res.1 "GET") "/a/x" = (Some node, {[ "b" := "/x" ]}) /\
    Search res.1 "GET" "/a/x" = (Some node, Some {[ "b" := "/x" ]}).
Proof.
  split; [vm_compute; reflexivity|]. split; [vm_compute; reflexivity|].
  eexists. split; [vm_compute; reflexivity|].
  split; [reflexivity|]. split; [by eexists|].
  split; [vm_compute; reflexivity|].
  split; vm_compute; reflexivity.
Qed.

(** ** Splitting, joining and cleaning paths *)

Lemma SplitSlash_app_slash (k s : string) :
  no_slash k ->
  strings.SplitSlash (k ++ String "/" s) = k :: strings.SplitSlash s.
Proof.
  induction k as [|c k IH]; simpl; [done|]. intros [Hc Hk].
  destruct (Ascii.eqb_spec c "/"); [done|]. by rewrite IH.
Qed.

Lemma SplitSlash_no_slash (k : string) :
  no_slash k -> strings.SplitSlash k = [k].
Proof.
  induction k as [|c k IH]; simpl; [done|]. intros [Hc Hk].
  destruct (Ascii.eqb_spec c "/"); [done|]. by rewrite IH.
Qed.

(** The pieces that [strings.Split] returns hold no separator. *)
Lemma SplitSlash_Forall_no_slash (s : string) :
  Forall no_slash (strings.SplitSlash s).
Proof.
  induction s as [|c s IH]; simpl; [by repeat constructor|].
  destruct (Ascii.eqb_spec c "/") as [->|Hc]; [by constructor|].
  destruct (strings.SplitSlash s) as [|piece pieces];
    [by repeat constructor|].
  inversion IH; subst. by repeat constructor.
Qed.

Lemma SplitSlash_concat (l : list string) :
  Forall no_slash l -> l <> [] ->
  strings.SplitSlash (String.concat "/" l) = l.
Proof.
  induction l as [|x l IH]; [done|]. intros Hl _.
  inversion Hl as [|? ? Hx Hl']; subst.
  destruct l as [|y l].
  - by apply SplitSlash_no_slash.
  - change (String.concat "/" (x :: y :: l))
      with (x ++ String "/" (String.concat "/" (y :: l))).
    rewrite SplitSlash_app_slash by done. f_equal. by apply IH.
Qed.

Lemma clean_elem_plain rooted kept e :
  plain e -> filepath.clean_elem rooted kept e = e :: kept.
Proof.
  intros (H1 & H2 & H3). unfold filepath.clean_elem.
  destruct (String.eqb_spec e ""); [done|].
  destruct (String.eqb_spec e "."); [done|].
  by destruct (String.eqb_spec e "..").
Qed.

Lemma foldl_clean_plain rooted kept l :
  Forall plain l ->
  foldl (filepath.clean_elem rooted) kept l = (rev l ++ kept)%list.
Proof.
  revert kept. induction l as [|e l IH]; intros kept Hl; simpl; [done|].
  inversion Hl; subst. rewrite clean_elem_plain by done.
  rewrite IH by done. by rewrite <- app_assoc.
Qed.

(** On plain segments, the wildcard value is the remainder joined with
    [/] after a leading [/]. *)
Lemma Join_plain (rest : list string) :
  rest <> [] -> Forall no_slash rest -> Forall plain rest ->
  filepath.Join ("/" :: rest) = "/" ++ String.concat "/" rest.
Proof.
  intros Hne Hns Hpl. destruct rest as [|r0 rs]; [done|].
  change (filepath.Join ("/" :: r0 :: rs))
    with (filepath.Clean (String "/" (String "/" (String.concat "/" (r0 :: rs))))).
  unfold filepath.Clean.
  change (String.eqb (String "/" _) "") with false. cbv iota.
  change (String.prefix "/" (String "/" _)) with true. cbv iota.
  change (strings.SplitSlash (String "/" (String "/" ?s)))
    with ("" :: "" :: strings.SplitSlash s).
  rewrite SplitSlash_concat by done.
  change (foldl ?f [] ("" :: "" :: ?l)) with (foldl f [] l).
  rewrite foldl_clean_plain by done.
  rewrite app_nil_r, rev_involutive. done.
Qed.

(** ** Resolution: the trailing wildcard *)

Lemma add_key_param_nonempty k :
  is_capture k = true -> (add_key k).2 <> "".
Proof.
  intros Hk. unfold add_key. unfold is_capture in Hk. rewrite Hk.
  destruct k as [|c0 [|c1 k]]; [done|done|]. simpl.
  done.
Qed.

Section ChainWildcard.

Variables (path : string) (h : HandlerFunc) (opt : RouterOption).

Lemma chain_wildcard_nil s :
  has_sigil "*" s = true ->
  chain path (Some h) opt 1 [] (fresh_node path opt 1 s) =
    wildcard_node path h opt s.
Proof.
  intros Hs. unfold fresh_node, wildcard_node; simpl.
  by rewrite add_key_capture by (unfold is_capture; by rewrite Hs, orb_true_r).
Qed.

Lemma chain_wildcard_last s current :
  has_sigil "*" s = true ->
  chain path (Some h) opt 1 [s] current = set_child current "*" (wildcard_node path h opt s).
Proof.
  intros Hs. rewrite chain_cons, chain_wildcard_nil by done.
  by rewrite add_key_capture by (unfold is_capture; by rewrite Hs, orb_true_r).
Qed.

(** In the chain of a pattern made of literal segments and a trailing
    wildcard, a path through the literals ends on the node of the wildcard,
    its name bound to the cleaned remainder of the path, or to ["/"] when
    nothing remains. *)
Lemma find_from_chain_wildcard lits s rest current params :
  Children current = ∅ ->
  Forall (fun k => is_capture k = false) lits ->
  has_sigil "*" s = true ->
  find_from (chain path (Some h) opt 1 (lits ++ [s])%list current) params
            (lits ++ rest)%list =
    (Some (wildcard_node path h opt s),
     <[(add_key s).2 :=
         match rest with
         | [] => "/"
         | _ :: _ => filepath.Join ("/" :: rest)
         end]> params).
Proof.
  intros Hch Hlits Hs. revert current Hch.
  induction Hlits as [|l lits Hl Hlits IH]; intros current Hch.
  - change ([] ++ [s])%list with [s]. change ([] ++ rest)%list with rest.
    assert (Hcap : is_capture s = true)
      by (unfold is_capture; by rewrite Hs, orb_true_r).
    pose proof (add_key_param_nonempty s Hcap) as Hname.
    destruct rest as [|r0 rs].
    + rewrite find_from_nil, chain_wildcard_last by done.
      unfold find_finish, find_star_fix; simpl. by rewrite lookup_insert_eq.
    + rewrite find_from_cons, find_child_chain by done.
      rewrite add_key_capture by done.
      assert (Henter :
        find_enter (chain path (Some h) opt 1 [] (fresh_node path opt 1 s))
                   params r0 rs =
        Returned (Some (wildcard_node path h opt s))
                 (<[(add_key s).2 := filepath.Join ("/" :: r0 :: rs)]> params)).
      { rewrite chain_wildcard_nil by done.
        unfold find_enter, wildcard_node; cbn [Param Star].
        by destruct (String.eqb_spec (add_key s).2 ""). }
      repeat case_decide; try done; by rewrite Henter.
  - change ((l :: lits) ++ [s])%list with (l :: (lits ++ [s]))%list.
    change ((l :: lits) ++ rest)%list with (l :: (lits ++ rest))%list.
    rewrite find_from_cons, find_child_chain by done.
    rewrite add_key_literal by done; simpl.
    rewrite decide_True by done.
    unfold find_enter. rewrite chain_Param, chain_Star; simpl.
    rewrite add_key_literal by done; simpl.
    by apply (IH (fresh_node path opt 1 l)).
Qed.

End ChainWildcard.

Lemma star_count_literals (lits : list string) :
  Forall (fun k => is_capture k = false) lits -> star_count lits = 0%nat.
Proof.
  induction 1 as [|l lits Hl _ IH]; [done|].
  unfold star_count in *; simpl. unfold is_capture in Hl.
  apply orb_false_elim in Hl as [_ ->]. done.
Qed.

Lemma star_count_trailing (lits : list string) (s : string) :
  Forall (fun k => is_capture k = false) lits -> has_sigil "*" s = true ->
  star_count (lits ++ [s]) = 1%nat.
Proof.
  intros Hl Hs. rewrite star_count_app, star_count_literals by done.
  unfold star_count; simpl. by rewrite Hs.
Qed.

(** C2, as stated, fails: the value bound is not the joined remainder when
    the remainder has an empty segment (or a [.] or [..] one).  With
    [/posts/*id] registered, [/posts/123//456] binds [id] to ["/123/456"],
    and the remainder [123], [], [456] joined with [/] after a leading [/]
    is ["/123//456"]. *)
Lemma wildcard_binding_counterexample :
  let r := (Handle New "GET" "/posts/*id" None []).1 in
  segments "/posts/123//456" = ["posts"; "123"; ""; "456"] /\
  (Search r "GET" "/posts/123//456").2 = Some {[ "id" := "/123/456" ]} /\
  "/123/456" <> "/" ++ String.concat "/" ["123"; ""; "456"].
Proof. vm_compute. by repeat split. Qed.

(** C2, amended: when resolution enters a wildcard node (a node with a
    parameter name and the star flag) at a segment, it binds the name to
    [filepath.Join] of ["/"] and the segments from that one on, and returns
    that node without descending further; the value is the remainder
    joined with [/] after a leading [/] when none of its segments is
    empty, [.] or [..].  For a pattern of literal segments and a trailing
    [*name], registered first under its method, every path through the
    literals resolves to the node of the pattern with [name] bound to that
    value, and to ["/"] when no segment remains.  With [/posts/*id]
    registered, [/posts] binds [id] to ["/"], [/posts/123] to ["/123"] and
    [/posts/123/456] to ["/123/456"]. *)
Theorem wildcard_binding :
  (forall cur params k rest node,
     find_child cur k = Some node -> Param node <> "" -> Star node = true ->
     find_loop cur params (k :: rest) =
       Returned (Some node)
         (<[Param node := filepath.Join ("/" :: k :: rest)]> params)) /\
  (forall path i,
     drop i (segments path) <> [] -> Forall plain (drop i (segments path)) ->
     filepath.Join ("/" :: drop i (segments path)) =
       "/" ++ String.concat "/" (drop i (segments path))) /\
  (forall r method pattern handler optionFns lits s path rest,
     trees r !! method = None ->
     segments pattern = (lits ++ [s])%list ->
     Forall (fun k => is_capture k = false) lits ->
     has_sigil "*" s = true ->
     segments path = (lits ++ rest)%list ->
     exists node,
       Search (Handle r method pattern handler optionFns).1 method path =
         (Some node,
          Some {[ (add_key s).2 :=
                    match rest with
                    | [] => "/"
                    | _ :: _ => filepath.Join ("/" :: rest)
                    end ]}) /\
       Handler node = Some (default Noop handler) /\
       Path node = pattern) /\
  (let r := (Handle New "GET" "/posts/*id" (Some (Func "h")) []).1 in
   exists node,
     Handler node = Some (Func "h") /\
     Search r "GET" "/posts" = (Some node, Some {[ "id" := "/" ]}) /\
     Search r "GET" "/posts/123" = (Some node, Some {[ "id" := "/123" ]}) /\
     Search r "GET" "/posts/123/456"
       = (Some node, Some {[ "id" := "/123/456" ]})).
Proof.
  split; [|split; [|split]].
  - intros cur params k rest node Hchild Hparam Hstar.
    rewrite find_loop_cons, Hchild. unfold find_enter. rewrite Hstar.
    by destruct (String.eqb_spec (Param node) "").
  - intros path i Hne Hplain. apply Join_plain; [done| |done].
    apply Forall_drop, SplitSlash_Forall_no_slash.
  - intros r method pattern handler optionFns lits s path rest
           Hm Hpat Hlits Hs Hpath.
    pose proof (star_count_trailing lits s Hlits Hs) as Hcount.
    rewrite Handle_first by (done || rewrite Hpat; lia).
    rewrite Hpat, Hcount.
    eexists. split.
    { eapply Search_hit; simpl; [apply lookup_insert_eq|].
      rewrite find_is_find_from, Hpath.
      by rewrite find_from_chain_wildcard. }
    by split.
  - eexists. split; [|repeat split; vm_compute; reflexivity]. reflexivity.
Qed.

Lemma wildcard_binding_witness :
  exists node,
    Search (Handle New "GET" "/start/hello/*action" None []).1
           "GET" "/start/hello/aaa/bbb"
      = (Some node, Some {[ "action" := "/aaa/bbb" ]}) /\
    Handler node = Some Noop /\ Path node = "/start/hello/*action".
Proof.
  apply (proj1 (proj2 (proj2 wildcard_binding)) New "GET"
           "/start/hello/*action" None [] ["start"; "hello"] "*action"
           "/start/hello/aaa/bbb" ["aaa"; "bbb"]);
    first [reflexivity | by repeat constructor].
Defined.

(** ** Resolution of a registered pattern *)

(** A pattern without [*name] segment, registered first under its method,
    is found again by every path that fits it, with its handler. *)
Lemma Search_registered_no_star r method pattern handler optionFns path :
  trees r !! method = None ->
  star_count (segments pattern) = 0%nat ->
  Forall2 fits (segments pattern) (segments path) ->
  exists node params,
    Search (Handle r method pattern handler optionFns).1 method path
      = (Some node, Some params) /\
    Handler node = Some (default Noop handler) /\
    Path node = pattern /\
    Option node = Some (new_option optionFns).
Proof.
  intros Hm Hs Hfits. rewrite Handle_first by (done || lia). rewrite Hs.
  destruct (find_from_chain_fits pattern (default Noop handler)
              (new_option optionFns) _ _ new_root ∅ eq_refl Hfits)
    as (node & params & Hf & Hh & Hp & Ho).
  exists node, params. split; [|split; [done|]].
  - eapply Search_hit; simpl; [apply lookup_insert_eq|].
    by rewrite find_is_find_from.
  - destruct (segments_cons pattern) as (k & ks & Hk). rewrite Hk in *.
    split; [apply Hp|apply Ho]; by left.
Qed.

(** C1 fails on the code for a pattern with a [:name] capture before the
    trailing wildcard.  [/a/:b/*c] is registered into a new router with
    the handler [h]; every node made for it carries the star flag, so the
    resolution of [/a/x/y] stops at the node of [:b]: it returns that
    node, which has no handler, with [b] bound to ["/x/y"], and not the
    node that carries [h]. *)
Theorem Search_capture_before_wildcard :
  let res := Handle New "GET" "/a/:b/*c" (Some (Func "h")) [] in
  res.2 = None /\
  Forall2 fits (segments "/a/:b/*c") (segments "/a/x/y") /\
  exists node,
    Search res.1 "GET" "/a/x/y" = (Some node, Some {[ "b" := "/x/y" ]}) /\
    Handler node = None /\ Param node = "b" /\ Star node = true.
Proof.
  split; [vm_compute; reflexivity|]. split.
  - vm_compute. repeat constructor; (by left) || (by right).
  - eexists. split; [vm_compute; reflexivity|]. by repeat split.
Qed.

(** ** Registration: captures, extensions and conflicts *)

(** Registering, after a pattern without [*name] segment, the pattern
    extended by one more segment makes the node of that segment. *)
Lemma add_loop_extend path1 h1 opt1 path2 h2 opt2 ps k starPrev current :
  Children current = ∅ ->
  exists n',
    add_loop path2 h2 opt2 0 (ps ++ [k])%list true starPrev
             (chain path1 h1 opt1 0 ps current) = (n', None).
Proof.
  revert starPrev current.
  induction ps as [|p ps IH]; intros starPrev current Hch.
  - change ([] ++ [k])%list with [k].
    rewrite add_loop_fresh; [by eauto|done|done|by left].
  - change ((p :: ps) ++ [k])%list with (p :: (ps ++ [k]))%list.
    rewrite chain_cons. cbn [add_loop].
    destruct (add_key p) as [k' param]; simpl.
    rewrite lookup_insert_eq.
    match goal with
    | |- context [add_loop _ _ _ _ _ true true (chain _ _ _ _ _ ?n)] =>
        destruct (IH true n eq_refl) as [n' ->]
    end.
    eauto.
Qed.

(** C9, as stated, fails: a pattern with a bare [*] segment is accepted.
    [Handle] registers [/*] into a new router without error, and the route
    then matches every one-segment path, with no parameter. *)
Lemma Handle_bare_star_counterexample :
  let res := Handle New "GET" "/*" (Some (Func "h")) [] in
  segments "/*" = ["*"] /\
  res.2 = None /\
  exists node,
    Search res.1 "GET" "/anything" = (Some node, Some ∅) /\
    Handler node = Some (Func "h") /\ Path node = "/*".
Proof.
  split; [done|]. split; [done|].
  eexists. split; [vm_compute; reflexivity|]. by split.
Qed.

(** C9, amended: a bare [*] segment (length 1) is not a capture and is not
    rejected.  [add] files it under the key ["*"] with no parameter name
    and does not count it as a [*name] segment; a pattern that contains
    one, registered first under its method, is accepted whenever it has at
    most one [*name] segment. *)
Theorem Handle_bare_star_accepted :
  add_key "*" = ("*", "") /\
  has_sigil "*" "*" = false /\
  (forall r method pattern handler optionFns,
     trees r !! method = None ->
     In "*" (segments pattern) ->
     (star_count (segments pattern) <= 1)%nat ->
     (Handle r method pattern handler optionFns).2 = None).
Proof.
  split; [done|]. split; [done|].
  intros r method pattern handler optionFns Hm _ Hs.
  by rewrite Handle_first.
Qed.

Lemma Handle_bare_star_accepted_witness :
  (Handle New "GET" "/files/*/*rest" None []).2 = None.
Proof.
  apply (proj2 (proj2 Handle_bare_star_accepted)).
  - reflexivity.
  - vm_compute. tauto.
  - vm_compute. lia.
Defined.


(** ** Registration: what decides the result of [Handle] *)

Lemma has_path_exists (n : Node) (ks : list string) :
  has_path n ks = true <-> path_exists n ks.
Proof.
  revert n. induction ks as [|k ks IH]; intros n; simpl; [done|].
  destruct (Children n !! k); [apply IH|done].
Qed.

(** Without a [*abc] segment in the pattern, the loop of [add] fails only
    as a duplicate, when every segment has its node. *)
Lemma add_loop_no_star_error path handler opt slice duplicate starPrev current :
  add_inv 0 duplicate starPrev current ->
  (add_loop path handler opt 0 slice duplicate starPrev current).2 =
    if duplicate && has_path current (keys slice)
    then Some ErrRouterDuplicate else None.
Proof.
  revert duplicate starPrev current.
  induction slice as [|k rest IH]; intros duplicate starPrev current Hinv.
  - simpl. unfold add_finish. by destruct duplicate.
  - cbn [add_loop keys map has_path]. destruct (add_key k) as [k' param].
    cbn [fst andb Nat.ltb Nat.leb].
    destruct (Children current !! k') as [next|] eqn:Hk.
    + destruct (add_inv_found _ _ _ _ _ _ Hinv Hk) as [-> Hinv'].
      specialize (IH true true next Hinv').
      case_add_loop next' e Hrec. simpl in *. by rewrite IH.
    + rewrite add_loop_fresh by auto. by rewrite andb_false_r.
Qed.

(** With a [*abc] segment in the pattern, [add] looks at the first two
    segments only. *)
Lemma add_loop_star_error path handler opt stars slice current :
  (0 < stars)%nat -> slice <> [] ->
  (add_loop path handler opt stars slice true false current).2 =
    if has_path current (keys (take 2 slice)) then Some ErrRouterDuplicate
    else if has_path current (keys (take 1 slice)) then Some ErrRouterSyntax
    else None.
Proof.
  intros Hstars Hne. destruct slice as [|k1 rest]; [done|].
  assert ((0 <? stars)%nat = true) as Hpos by by apply Nat.ltb_lt.
  cbn [add_loop]. destruct (add_key k1) as [k1' p1] eqn:Hk1.
  rewrite andb_false_r.
  destruct rest as [|k2 rest].
  - cbn [take keys map has_path]. rewrite Hk1; cbn [fst].
    destruct (Children current !! k1') as [first|] eqn:Hfirst.
    + by simpl.
    + by rewrite add_loop_fresh by (done || by rewrite andb_false_r || auto).
  - cbn [take keys map has_path]. rewrite Hk1; cbn [fst].
    destruct (Children current !! k1') as [first|] eqn:Hfirst.
    + cbn [add_loop]. destruct (add_key k2) as [k2' p2]; cbn [fst].
      rewrite Hpos; cbn [andb].
      by destruct (Children first !! k2').
    + by rewrite add_loop_fresh by (done || by rewrite andb_false_r || auto).
Qed.

Lemma add_error_outcome n path handler opt :
  (add n path handler opt).2 = add_outcome n (segments path).
Proof.
  unfold add_outcome.
  destruct (Nat.ltb_spec 1 (star_count (segments path))) as [H2|H1].
  - by rewrite add_two_stars by lia.
  - rewrite add_loop_of_add by done.
    destruct (Nat.ltb_spec 0 (star_count (segments path))) as [Hpos|H0].
    + rewrite add_loop_star_error; [|done|].
      * by destruct (has_path n (keys (take 2 (segments path)))).
      * by destruct (segments_cons path) as (k & rest & ->).
    + assert (star_count (segments path) = 0%nat) as -> by lia.
      rewrite add_loop_no_star_error by apply add_inv_init. done.
Qed.

(** X1: the result of [Handle] is decided by the number of [*abc] segments
    of the pattern and by which of its nodes the trie of the method
    already has: it is [add_outcome] of that trie and the segments,
    whatever the handler and the options. *)
Theorem Handle_result_decided r method path handler optionFns :
  (Handle r method path handler optionFns).2 =
    add_outcome (tree_of r method) (segments path).
Proof. rewrite Handle_error. apply add_error_outcome. Qed.

(** ** Registration under one method and the other methods *)

Lemma Handle_trees r method path handler optionFns :
  trees (Handle r method path handler optionFns).1 =
    <[method := tree_of (Handle r method path handler optionFns).1 method]>
      (trees r).
Proof.
  rewrite tree_of_Handle. by rewrite Handle_unfold.
Qed.

(** X2: [Handle] under a method leaves the tries of all other methods as
    they are, makes sure its own method has a trie, and, unless the method
    is ["ANY"], changes no search under another method. *)
Theorem Handle_other_methods r method path handler optionFns m :
  m <> method ->
  trees (Handle r method path handler optionFns).1 !! m = trees r !! m /\
  is_Some (trees (Handle r method path handler optionFns).1 !! method) /\
  (method <> MethodAny ->
   forall q,
     Search (Handle r method path handler optionFns).1 m q = Search r m q).
Proof.
  intros Hm. rewrite Handle_trees.
  split; [by rewrite lookup_insert_ne|]. split.
  { rewrite lookup_insert_eq. by eexists. }
  intros Hany q. rewrite !Search_is_policy. unfold Search_policy.
  rewrite Handle_trees. by rewrite !lookup_insert_ne by done.
Qed.

Lemma Handle_other_methods_witness :
  Search (Handle (Handle New "POST" "/posts" None []).1
                 "GET" "/posts/:id" None []).1 "POST" "/posts"
    = Search (Handle New "POST" "/posts" None []).1 "POST" "/posts".
Proof.
  apply (Handle_other_methods (Handle New "POST" "/posts" None []).1
           "GET" "/posts/:id" None [] "POST"); discriminate.
Defined.

(** ** The leading slash *)

Lemma substring_all (s : string) : String.substring 0 (String.length s) s = s.
Proof. induction s as [|c s IH]; simpl; [done|]. by rewrite IH. Qed.

Lemma TrimPrefix_slash (p : string) :
  strings.TrimPrefix (String "/" p) "/" = p.
Proof.
  unfold strings.TrimPrefix. simpl. rewrite Nat.sub_0_r.
  by destruct p; simpl; rewrite ?substring_all.
Qed.

Lemma TrimPrefix_no_slash (p : string) :
  String.prefix "/" p = false -> strings.TrimPrefix p "/" = p.
Proof. unfold strings.TrimPrefix. by intros ->. Qed.

Lemma find_segments n p1 p2 :
  segments p1 = segments p2 -> find n p1 = find n p2.
Proof. unfold find. by intros ->. Qed.

Lemma Search_segments r method p1 p2 :
  segments p1 = segments p2 -> Search r method p1 = Search r method p2.
Proof.
  intros Hseg. rewrite !Search_is_policy. unfold Search_policy.
  destruct (trees r !! MethodAny) as [a|], (trees r !! method) as [t|];
    by rewrite ?(find_segments _ p1 p2).
Qed.

(** X3: the leading slash of a pattern or of a request path is optional
    (one slash is trimmed): with and without it the segments are the
    same, every search returns the same result, [Handle] returns the same
    error, and registering the one form after the other is a duplicate. *)
Theorem leading_slash_optional (p : string) :
  String.prefix "/" p = false ->
  segments (String "/" p) = segments p /\
  (forall r method, Search r method (String "/" p) = Search r method p) /\
  (forall r method handler optionFns,
     (Handle r method (String "/" p) handler optionFns).2
       = (Handle r method p handler optionFns).2) /\
  (forall r method handler optionFns handler' optionFns',
     (Handle r method p handler optionFns).2 = None ->
     (Handle (Handle r method p handler optionFns).1 method (String "/" p)
             handler' optionFns').2 = Some ErrRouterDuplicate).
Proof.
  intros Hp.
  assert (Hseg : segments (String "/" p) = segments p).
  { unfold segments. by rewrite TrimPrefix_slash, TrimPrefix_no_slash. }
  split; [done|]. split; [|split].
  - intros r method. by apply Search_segments.
  - intros r method handler optionFns.
    by rewrite !Handle_error, !add_error_outcome, Hseg.
  - intros r method handler optionFns handler' optionFns' Hok.
    rewrite (Handle_error (Handle _ _ _ _ _).1), tree_of_Handle.
    rewrite Handle_error in Hok.
    destruct (add (tree_of r method) p _ _) as [t e] eqn:Hadd.
    simpl in *; subst e. apply add_success in Hadd as [Hs Hpath].
    rewrite add_existing; [done|by rewrite Hseg..].
Qed.

Lemma leading_slash_optional_witness :
  (Handle (Handle New "GET" "posts/:id" None []).1 "GET" "/posts/:id"
          None []).2 = Some ErrRouterDuplicate.
Proof.
  apply (proj2 (proj2 (proj2 (leading_slash_optional "posts/:id" eq_refl)))).
  reflexivity.
Defined.

(** ** The value of a wildcard *)

Lemma clean_elem_rooted (kept : list string) (e : string) :
  no_slash e -> Forall plain kept -> Forall no_slash kept ->
  Forall plain (filepath.clean_elem true kept e) /\
  Forall no_slash (filepath.clean_elem true kept e).
Proof.
  intros He Hp Hn. unfold filepath.clean_elem.
  destruct (String.eqb_spec e "") as [|H1]; [done|].
  destruct (String.eqb_spec e ".") as [|H2]; [done|]. simpl.
  destruct (String.eqb_spec e "..") as [->|H3].
  - destruct kept as [|top below]; [done|].
    inversion Hp as [|? ? (_ & _ & Htop) Hp']; subst.
    inversion Hn; subst.
    by destruct (String.eqb_spec top "..").
  - split; by constructor.
Qed.

Lemma foldl_clean_rooted (l kept : list string) :
  Forall no_slash l -> Forall plain kept -> Forall no_slash kept ->
  Forall plain (foldl (filepath.clean_elem true) kept l) /\
  Forall no_slash (foldl (filepath.clean_elem true) kept l).
Proof.
  revert kept. induction l as [|e l IH]; intros kept Hl Hp Hn; simpl; [done|].
  inversion Hl; subst.
  destruct (clean_elem_rooted kept e) as [Hp' Hn']; try done.
  by apply IH.
Qed.

(** [filepath.Join] after ["/"] gives a rooted path of plain elements. *)
Lemma Join_rooted_clean (segs : list string) :
  exists kept,
    Forall plain kept /\ Forall no_slash kept /\
    filepath.Join ("/" :: segs) = "/" ++ String.concat "/" kept.
Proof.
  assert (exists s, strings.Join ("/" :: segs) "/" = String "/" s) as [s Hs].
  { unfold strings.Join. destruct segs; simpl; by eauto. }
  change (filepath.Join ("/" :: segs))
    with (filepath.Clean (strings.Join ("/" :: segs) "/")).
  rewrite Hs. unfold filepath.Clean.
  change (String.eqb (String "/" s) "") with false. cbv iota.
  assert (String.prefix "/" (String "/" s) = true) as ->.
  { simpl. by destruct s. }
  destruct (foldl_clean_rooted (strings.SplitSlash (String "/" s)) [])
    as [Hp Hn]; [apply SplitSlash_Forall_no_slash|done|done|].
  exists (rev (foldl (filepath.clean_elem true) []
                     (strings.SplitSlash (String "/" s)))).
  split; [by apply Forall_rev|]. split; [by apply Forall_rev|]. done.
Qed.

(** X4: the value that [find] binds to a wildcard is a cleaned, rooted
    path: a [/] followed by path elements joined with [/], none of them
    empty, [.] or [..], whatever the segments of the request. *)
Theorem wildcard_value_clean cur params k rest node :
  find_child cur k = Some node -> Param node <> "" -> Star node = true ->
  exists kept,
    Forall plain kept /\ Forall no_slash kept /\
    find_loop cur params (k :: rest) =
      Returned (Some node)
               (<[Param node := "/" ++ String.concat "/" kept]> params).
Proof.
  intros Hchild Hparam Hstar.
  destruct (Join_rooted_clean (k :: rest)) as (kept & Hp & Hn & Hjoin).
  exists kept. split; [done|]. split; [done|].
  rewrite find_loop_cons, Hchild. unfold find_enter. rewrite Hstar, Hjoin.
  by destruct (String.eqb_spec (Param node) "").
Qed.

Lemma wildcard_value_clean_witness :
  exists kept,
    Forall plain kept /\ Forall no_slash kept /\
    find_loop (tree_of (Handle New "GET" "/*path" None []).1 "GET") ∅
              [".."; "etc"; ""; "passwd"] =
      Returned
        (Some (wildcard_node "/*path" Noop (new_option []) "*path"))
        (<[Param (wildcard_node "/*path" Noop (new_option []) "*path")
             := "/" ++ String.concat "/" kept]> ∅).
Proof.
  apply (wildcard_value_clean
           (tree_of (Handle New "GET" "/*path" None []).1 "GET") ∅
           ".." ["etc"; ""; "passwd"]
           (wildcard_node "/*path" Noop (new_option []) "*path")).
  - vm_compute. reflexivity.
  - vm_compute. discriminate.
  - reflexivity.
Defined.


(** ** Resolution of a pattern without wildcard: matching and params *)

Section ChainMatch.

Variables (path : string) (h : HandlerFunc) (opt : RouterOption).

Lemma add_key_literal_key k : (add_key k).1 <> "*" -> add_key k = (k, "").
Proof.
  intros Hk. destruct (is_capture k) eqn:Hcap.
  - by rewrite add_key_capture in Hk.
  - by apply add_key_literal.
Qed.

(** In the chain of a pattern without [*name] segment, moving to the node
    of the segment [p] binds the segment of the path when [p] is a
    capture, and goes on. *)
Lemma find_enter_chain_capture slice p params q rest :
  find_enter (chain path (Some h) opt 0 slice (fresh_node path opt 0 p))
             params q rest =
    find_loop (chain path (Some h) opt 0 slice (fresh_node path opt 0 p))
              (if is_capture p then <[(add_key p).2 := q]> params else params)
              rest.
Proof.
  unfold find_enter. rewrite chain_Param, chain_Star.
  cbn [fresh_node Param Star].
  destruct (is_capture p) eqn:Hcap.
  - pose proof (add_key_param_nonempty p Hcap) as Hne.
    by destruct (String.eqb_spec (add_key p).2 "").
  - by rewrite add_key_literal.
Qed.

(** A trie with one pattern without [*name] segment: a path is matched
    exactly when its segments are taken one by one by the nodes of the
    pattern, and then the params are those of the captures. *)
Lemma find_from_chain_match ps qs current params :
  Children current = ∅ -> Handler current = None ->
  (Forall2 taken_by ps qs ->
   exists node,
     find_from (chain path (Some h) opt 0 ps current) params qs
       = (Some node, captures ps qs params) /\
     Handler node = Some h /\
     (ps <> [] -> Path node = path /\ Option node = Some opt)) /\
  (~ Forall2 taken_by ps qs ->
   (find_from (chain path (Some h) opt 0 ps current) params qs).1 = None).
Proof.
  revert qs current params.
  induction ps as [|p ps IH]; intros qs current params Hch Hh.
  - destruct qs as [|q qs].
    + split; [intros _|by intros []].
      exists (set_handler current (Some h)).
      rewrite find_from_nil. unfold find_finish, find_star_fix; simpl.
      rewrite Hch, lookup_empty; simpl. by repeat split.
    + split; [by intros HF; inversion HF|intros _].
      rewrite find_from_cons. unfold find_child; simpl.
      by rewrite Hch, !lookup_empty.
  - destruct qs as [|q qs].
    + split; [by intros HF; inversion HF|intros _].
      rewrite find_from_nil. unfold find_finish.
      rewrite find_star_fix_chain_no_star by done.
      rewrite chain_cons; simpl. by rewrite Hh.
    + rewrite find_from_cons, find_child_chain by done.
      destruct (IH qs (fresh_node path opt 0 p)
                  (if is_capture p then <[(add_key p).2 := q]> params
                   else params) eq_refl eq_refl) as [IHyes IHno].
      unfold find_from in IHyes, IHno.
      assert (Htaken : taken_by p q <->
                       q = (add_key p).1 \/ (add_key p).1 = "*").
      { unfold taken_by. split.
        - intros [Hs | ->]; [by right|].
          destruct (decide ((add_key p).1 = "*")); [by right|left].
          by rewrite add_key_literal_key.
        - intros [-> | Hs]; [|by left].
          destruct (decide ((add_key p).1 = "*")); [by left|right].
          by rewrite add_key_literal_key. }
      split.
      * intros HF. inversion HF as [|? ? ? ? Hpq HF']; subst.
        destruct (IHyes HF') as (node & Hf & Hnode & Hpath).
        exists node.
        split; [|split; [done|]].
        -- apply Htaken in Hpq.
           repeat case_decide; rewrite ?find_enter_chain_capture; try done.
           by destruct Hpq.
        -- intros _. destruct ps as [|p' ps]; [|by apply Hpath].
           inversion HF'; subst. cbn [find_loop chain] in Hf.
           unfold find_finish, find_star_fix in Hf; simpl in Hf.
           rewrite lookup_empty in Hf. simpl in Hf.
           by injection Hf as <-.
      * intros HnF.
        repeat case_decide; rewrite ?find_enter_chain_capture; try done.
        -- apply IHno. intros HF'. apply HnF. constructor; [|done].
           apply Htaken. by left.
        -- apply IHno. intros HF'. apply HnF. constructor; [|done].
           apply Htaken. by right.
Qed.

End ChainMatch.

Lemma captures_other ps qs params name :
  Forall (fun p => is_capture p = true -> (add_key p).2 <> name) ps ->
  captures ps qs params !! name = params !! name.
Proof.
  intros Hps. revert qs params.
  induction Hps as [|p ps Hp _ IH]; intros qs params; [done|].
  destruct qs as [|q qs]; [done|]. cbn [captures]. rewrite IH.
  destruct (is_capture p); [|done]. by rewrite lookup_insert_ne by auto.
Qed.

Lemma captures_lookup ps qs params i p q :
  ps !! i = Some p -> qs !! i = Some q -> is_capture p = true ->
  Forall (fun p' => is_capture p' = true -> (add_key p').2 <> (add_key p).2)
         (drop (S i) ps) ->
  captures ps qs params !! (add_key p).2 = Some q.
Proof.
  revert qs params i.
  induction ps as [|p0 ps IH]; intros qs params i Hp Hq Hcap Hlater; [done|].
  destruct qs as [|q0 qs]; [done|]. cbn [captures].
  destruct i as [|i]; simpl in *.
  - simplify_eq. rewrite captures_other by done.
    by rewrite Hcap, lookup_insert_eq.
  - by eapply IH.
Qed.

(** X5: a pattern without [*name] segment, registered first under its
    method, binds its captures to the segments of the path at their
    positions.  For every path whose segments are taken by the pattern,
    the search returns the node with the handler, the pattern and the
    options of the registration; in the params, the name of a capture is
    bound to the segment at its position, unless a later capture has the
    same name; a name that no capture has is not bound. *)
Theorem Search_binds_captures r method pattern handler optionFns path :
  trees r !! method = None ->
  star_count (segments pattern) = 0%nat ->
  Forall2 taken_by (segments pattern) (segments path) ->
  exists node params,
    Search (Handle r method pattern handler optionFns).1 method path
      = (Some node, Some params) /\
    Handler node = Some (default Noop handler) /\
    Path node = pattern /\
    Option node = Some (new_option optionFns) /\
    (forall i p q,
       segments pattern !! i = Some p -> segments path !! i = Some q ->
       is_capture p = true ->
       Forall (fun p' => is_capture p' = true ->
                         (add_key p').2 <> (add_key p).2)
              (drop (S i) (segments pattern)) ->
       params !! (add_key p).2 = Some q) /\
    (forall name,
       Forall (fun p => is_capture p = true -> (add_key p).2 <> name)
              (segments pattern) ->
       params !! name = None).
Proof.
  intros Hm Hs Htaken. rewrite Handle_first by (done || lia). rewrite Hs.
  destruct (find_from_chain_match pattern (default Noop handler)
              (new_option optionFns) (segments pattern) (segments path)
              new_root ∅ eq_refl eq_refl) as [Hyes _].
  destruct (Hyes Htaken) as (node & Hf & Hh & Hpath).
  exists node, (captures (segments pattern) (segments path) ∅).
  split; [|split; [done|]].
  { eapply Search_hit; simpl; [apply lookup_insert_eq|].
    by rewrite find_is_find_from. }
  destruct (segments_cons pattern) as (k & ks & Hk).
  destruct Hpath as [Hp Ho]; [by rewrite Hk|].
  split; [done|]. split; [done|]. split.
  - intros i p q Hp' Hq' Hcap Hlater. by eapply captures_lookup.
  - intros name Hname. by rewrite captures_other.
Qed.

Lemma Search_binds_captures_witness :
  exists node params,
    Search (Handle New "PUT" "/posts/:id/tags/:tag" (Some (Func "h")) []).1
           "PUT" "/posts/7/tags/go" = (Some node, Some params) /\
    Handler node = Some (Func "h") /\
    params !! "id" = Some "7" /\ params !! "tag" = Some "go" /\
    params !! "posts" = None.
Proof.
  destruct (Search_binds_captures New "PUT" "/posts/:id/tags/:tag"
              (Some (Func "h")) [] "/posts/7/tags/go")
    as (node & params & HS & Hh & _ & _ & Hbound & Hfree).
  - reflexivity.
  - reflexivity.
  - vm_compute. repeat constructor; (by left) || (by right).
  - exists node, params. split; [done|]. split; [done|].
    split; [|split].
    + apply (Hbound 1%nat ":id" "7"); try reflexivity.
      vm_compute. repeat constructor; discriminate.
    + apply (Hbound 3%nat ":tag" "go"); try reflexivity.
      vm_compute. repeat constructor.
    + apply Hfree. vm_compute. repeat constructor; discriminate.
Defined.

(** X6: a pattern without [*name] segment, registered first under its
    method in a router without ["ANY"] trie, is matched by exactly the
    paths with as many segments as the pattern, each taken by the node of
    the pattern segment at its position: the same text for a literal, any
    text (the empty one too) for a capture and for a bare [*]. *)
Theorem Search_matches_exactly r method pattern handler optionFns path :
  trees r !! method = None ->
  trees r !! MethodAny = None ->
  star_count (segments pattern) = 0%nat ->
  is_Some (Search (Handle r method pattern handler optionFns).1 method path).1
  <-> Forall2 taken_by (segments pattern) (segments path).
Proof.
  intros Hm Hany Hs. rewrite Handle_first by (done || lia). rewrite Hs.
  destruct (find_from_chain_match pattern (default Noop handler)
              (new_option optionFns) (segments pattern) (segments path)
              new_root ∅ eq_refl eq_refl) as [Hyes Hno].
  rewrite Search_is_policy. unfold Search_policy; simpl.
  rewrite lookup_insert_eq, find_is_find_from.
  split.
  - intros Hsome.
    destruct (decide (Forall2 taken_by (segments pattern) (segments path)))
      as [|HnF]; [done|].
    specialize (Hno HnF).
    destruct (find_from _ ∅ (segments path)) as [[node|] params] eqn:Hf;
      simpl in Hno; [done|]. simpl in Hsome.
    destruct (decide (method = MethodAny)) as [->|Hne].
    + rewrite lookup_insert_eq, find_is_find_from, Hf in Hsome.
      by apply is_Some_None in Hsome.
    + rewrite lookup_insert_ne, Hany in Hsome by done.
      by apply is_Some_None in Hsome.
  - intros HF. destruct (Hyes HF) as (node & -> & _). by eexists.
Qed.

Lemma Search_matches_exactly_witness :
  is_Some (Search (Handle New "GET" "/posts/:id" None []).1 "GET" "/posts/").1.
Proof.
  apply (proj2 (Search_matches_exactly New "GET" "/posts/:id" None []
                  "/posts/" eq_refl eq_refl eq_refl)).
  vm_compute. repeat constructor; (by left) || (by right).
Defined.


(** ** Registration keeps the nodes of the trie *)

Lemma node_at_set_handler n handler ks :
  ks <> [] -> node_at (set_handler n handler) ks = node_at n ks.
Proof. by destruct ks. Qed.

Lemma node_at_set_child_eq n k next ks :
  node_at (set_child n k next) (k :: ks) = node_at next ks.
Proof. simpl. by rewrite lookup_insert_eq. Qed.

Lemma node_at_set_child_ne n k next k0 ks :
  k0 <> k -> node_at (set_child n k next) (k0 :: ks) = node_at n (k0 :: ks).
Proof. intros Hk. simpl. by rewrite lookup_insert_ne. Qed.

Lemma same_fields_refl c : same_fields c c.
Proof. by repeat split. Qed.

Lemma same_fields_trans c1 c2 c3 :
  same_fields c1 c2 -> same_fields c2 c3 -> same_fields c1 c3.
Proof.
  intros (?&?&?&?&?&?) (?&?&?&?&?&?). repeat split; congruence.
Qed.

(** The loop of [add], entered before any node is made, keeps every node
    of the trie where it is, with its fields. *)
Lemma add_loop_keeps path handler opt stars slice starPrev current
    current' err :
  add_loop path handler opt stars slice true starPrev current =
    (current', err) ->
  forall ks c,
    node_at current ks = Some c ->
    exists c', node_at current' ks = Some c' /\ same_fields c c'.
Proof.
  revert starPrev current current' err.
  induction slice as [|k rest IH]; intros starPrev current current' err.
  - intros [= <- <-] ks c Hc. eauto using same_fields_refl.
  - cbn [add_loop]. destruct (add_key k) as [k' param].
    destruct ((0 <? stars)%nat && starPrev).
    { destruct (Children current !! k'); intros [= <- <-] ks c Hc;
        eauto using same_fields_refl. }
    destruct (Children current !! k') as [next|] eqn:Hk.
    + case_add_loop next' e Hrec. intros [= <- <-] ks c Hc.
      destruct ks as [|k0 ks].
      * simpl in *. simplify_eq. eexists. split; [done|]. by repeat split.
      * destruct (decide (k0 = k')) as [->|Hne].
        -- rewrite node_at_set_child_eq. simpl in Hc. rewrite Hk in Hc.
           by eapply IH.
        -- rewrite node_at_set_child_ne by done.
           eauto using same_fields_refl.
    + case_add_loop next' e Hrec. intros [= <- <-] ks c Hc.
      destruct ks as [|k0 ks].
      * simpl in *. simplify_eq. eexists. split; [done|]. by repeat split.
      * destruct (decide (k0 = k')) as [->|Hne].
        -- simpl in Hc. by rewrite Hk in Hc.
        -- rewrite node_at_set_child_ne by done.
           eauto using same_fields_refl.
Qed.

Lemma add_keeps n path handler opt ks c :
  node_at n ks = Some c ->
  exists c',
    node_at (add n path handler opt).1 ks = Some c' /\ same_fields c c'.
Proof.
  intros Hc. unfold add. destruct (add_scan (segments path) 0) as [e|stars].
  - eauto using same_fields_refl.
  - destruct (add_loop _ _ _ _ _ true false n) as [n' e] eqn:Hadd.
    by eapply add_loop_keeps.
Qed.

Lemma Handle_keeps r method path handler optionFns m t ks c :
  trees r !! m = Some t -> node_at t ks = Some c ->
  exists t' c',
    trees (Handle r method path handler optionFns).1 !! m = Some t' /\
    node_at t' ks = Some c' /\ same_fields c c'.
Proof.
  intros Ht Hc. rewrite Handle_unfold; simpl.
  destruct (decide (m = method)) as [->|Hne].
  - rewrite lookup_insert_eq. unfold tree_of. rewrite Ht; simpl.
    destruct (add_keeps t path (Some (default Noop handler))
                (new_option optionFns) ks c Hc) as (c' & Hc' & Hsame).
    eauto.
  - rewrite lookup_insert_ne by done. eauto using same_fields_refl.
Qed.

(** Nodes stay through any number of calls of [Handle]. *)
Lemma later_keeps r r' m t ks c :
  later r r' ->
  trees r !! m = Some t -> node_at t ks = Some c ->
  exists t' c',
    trees r' !! m = Some t' /\ node_at t' ks = Some c' /\ same_fields c c'.
Proof.
  intros Hlater Ht Hc. induction Hlater as [|r' method path handler fns _ IH].
  - eauto using same_fields_refl.
  - destruct IH as (t' & c' & Ht' & Hc' & Hsame).
    destruct (Handle_keeps r' method path handler fns m t' ks c' Ht' Hc')
      as (t'' & c'' & Ht'' & Hc'' & Hsame').
    exists t'', c''. split; [done|]. split; [done|].
    by eapply same_fields_trans.
Qed.

(** X7: [Handle] never removes a node and never changes one: whatever it
    returns, and however many calls follow, a node of a trie stays where
    it is, with its pattern, key, handler, parameter name, star flag and
    option.  A handler is never overwritten. *)
Theorem Handle_keeps_nodes r r' m t ks c :
  later r r' ->
  trees r !! m = Some t -> node_at t ks = Some c ->
  exists t' c',
    trees r' !! m = Some t' /\ node_at t' ks = Some c' /\ same_fields c c'.
Proof. apply later_keeps. Qed.

Lemma Handle_keeps_nodes_witness :
  let r := (Handle New "GET" "/posts/:id" (Some (Func "show")) []).1 in
  let r' := (Handle (Handle r "GET" "/posts/:id" (Some (Func "other")) []).1
                    "GET" "/posts/:id/edit" (Some (Func "edit")) []).1 in
  exists t' c',
    trees r' !! "GET" = Some t' /\ node_at t' ["posts"; "*"] = Some c' /\
    Handler c' = Some (Func "show") /\ Path c' = "/posts/:id".
Proof.
  intros r r'.
  destruct (Handle_keeps_nodes r r' "GET" (tree_of r "GET") ["posts"; "*"]
              (set_handler (fresh_node "/posts/:id" (new_option []) 0 ":id")
                           (Some (Func "show"))))
    as (t' & c' & Ht' & Hc' & Hpath & _ & Hh & _).
  - apply later_Handle, later_Handle, later_now.
  - reflexivity.
  - vm_compute. reflexivity.
  - exists t', c'. by repeat split.
Defined.


(** ** The shape of the tries that [Handle] builds *)

Lemma tidy_below_intro n :
  (forall k c, Children n !! k = Some c -> tidy_child n k c /\ tidy_below c) ->
  tidy_below n.
Proof.
  intros Hn ks parent k c Hparent Hc. destruct ks as [|k0 ks]; simpl in *.
  - simplify_eq. by apply Hn.
  - destruct (Children n !! k0) as [c0|] eqn:Hk0; [|done].
    destruct (Hn k0 c0 Hk0) as [_ Hbelow]. by eapply Hbelow.
Qed.

Lemma tidy_below_child n k c :
  tidy_below n -> Children n !! k = Some c -> tidy_child n k c /\ tidy_below c.
Proof.
  intros Hn Hk. split; [by apply (Hn [] n k c)|].
  intros ks parent k' c' Hparent Hc'.
  apply (Hn (k :: ks) parent k' c'); [|done]. simpl. by rewrite Hk.
Qed.

Lemma tidy_child_parent parent parent' k c :
  Handler parent' = Handler parent ->
  tidy_child parent k c -> tidy_child parent' k c.
Proof. intros Hh (?&?&?&?&?). repeat split; try done. by rewrite Hh. Qed.

Lemma add_key_param_key k : (add_key k).2 <> "" -> (add_key k).1 = "*".
Proof. unfold add_key. by destruct (has_sigil ":" k || has_sigil "*" k). Qed.

Section ChainShape.

Variables (path : string) (h : HandlerFunc) (opt : RouterOption)
          (stars : nat).

Lemma chain_Key slice current :
  Key (chain path (Some h) opt stars slice current) = Key current.
Proof. by destruct slice. Qed.

Lemma chain_childless slice current :
  Children (chain path (Some h) opt stars slice current) = ∅ ->
  is_Some (Handler (chain path (Some h) opt stars slice current)).
Proof.
  destruct slice as [|k rest]; simpl; [by eauto|].
  intros Hch. apply (f_equal (fun m => m !! (add_key k).1)) in Hch.
  by rewrite lookup_insert_eq, lookup_empty in Hch.
Qed.

(** The chain that [add] hangs below a node without handler is tidy. *)
Lemma tidy_below_chain slice current :
  Children current = ∅ -> Handler current = None ->
  tidy_below (chain path (Some h) opt stars slice current).
Proof.
  revert current. induction slice as [|k rest IH]; intros current Hch Hh.
  - intros ks parent k c Hparent Hc.
    destruct ks as [|k0 ks]; simpl in *.
    + simplify_eq. simpl in Hc. by rewrite Hch, lookup_empty in Hc.
    + by rewrite Hch, lookup_empty in Hparent.
  - rewrite chain_cons. apply tidy_below_intro. intros k0 c Hc. simpl in Hc.
    rewrite Hch in Hc.
    destruct (decide (k0 = (add_key k).1)) as [->|Hne].
    + rewrite lookup_insert_eq in Hc. injection Hc as <-.
      split; [|by apply IH].
      repeat split.
      * by rewrite chain_Key.
      * rewrite chain_Param. apply add_key_param_key.
      * rewrite chain_Option. by eexists.
      * apply chain_childless.
      * intros _. done.
    + rewrite lookup_insert_ne, lookup_empty in Hc by done. done.
Qed.

End ChainShape.

(** The loop of [add] keeps a trie tidy. *)
Lemma add_loop_tidy path h opt stars slice starPrev current current' err :
  add_inv stars true starPrev current ->
  (starPrev = false -> Handler current = None) ->
  tidy_below current ->
  add_loop path (Some h) opt stars slice true starPrev current =
    (current', err) ->
  tidy_below current'.
Proof.
  revert starPrev current current' err.
  induction slice as [|k rest IH];
    intros starPrev current current' err Hinv Hroot Htidy.
  - by intros [= <- <-].
  - cbn [add_loop]. destruct (add_key k) as [k' param] eqn:Hkey.
    destruct ((0 <? stars)%nat && starPrev) eqn:Hsp.
    { by destruct (Children current !! k'); intros [= <- <-]. }
    destruct (Children current !! k') as [next|] eqn:Hk.
    + destruct (tidy_below_child _ _ _ Htidy Hk) as [Hnext Hbelow].
      destruct (add_inv_found _ _ _ _ _ _ Hinv Hk) as [_ Hinv'].
      case_add_loop next' e Hrec. intros [= <- <-].
      pose proof (add_loop_keeps _ _ _ _ _ _ _ _ _ Hrec) as Hkeeps.
      destruct (Hkeeps [] next eq_refl) as (? & [= <-] & Hsame).
      destruct Hsame as (HP & HK & HH & HPa & HS & HO).
      apply tidy_below_intro. intros k0 c Hc. simpl in Hc.
      destruct (decide (k0 = k')) as [->|Hne].
      * rewrite lookup_insert_eq in Hc. injection Hc as <-.
        split; [|by eapply IH; [| |exact Hbelow|exact Hrec]].
        destruct Hnext as (H1 & H2 & H3 & H4 & H5).
        repeat split.
        -- congruence.
        -- rewrite HPa. done.
        -- by rewrite HO.
        -- intros Hempty. rewrite HH. apply H4.
           apply map_eq. intros i. rewrite lookup_empty.
           destruct (Children next !! i) as [ci|] eqn:Hi; [|done].
           destruct (Hkeeps [i] ci) as (ci' & Hci' & _).
           { simpl. by rewrite Hi. }
           simpl in Hci'. by rewrite Hempty, lookup_empty in Hci'.
        -- rewrite HS. done.
      * rewrite lookup_insert_ne in Hc by done.
        destruct (tidy_below_child _ _ _ Htidy Hc) as [Hc0 Hbelow0].
        split; [|done]. by eapply tidy_child_parent.
    + rewrite add_loop_fresh by auto. intros [= <- <-].
      apply tidy_below_intro. intros k0 c Hc. simpl in Hc.
      destruct (decide (k0 = k')) as [->|Hne].
      * rewrite lookup_insert_eq in Hc. injection Hc as <-.
        replace k' with (add_key k).1 by by rewrite Hkey.
        replace param with (add_key k).2 by by rewrite Hkey.
        split; [|by apply tidy_below_chain].
        repeat split.
        -- by rewrite chain_Key.
        -- rewrite chain_Param. apply add_key_param_key.
        -- rewrite chain_Option. by eexists.
        -- apply chain_childless.
        -- rewrite chain_Star. simpl. intros Hpos.
           rewrite Hpos in Hsp. simpl in Hsp. by apply Hroot.
      * rewrite lookup_insert_ne in Hc by done.
        destruct (tidy_below_child _ _ _ Htidy Hc) as [Hc0 Hbelow0].
        split; [|done]. by eapply tidy_child_parent.
Qed.

Lemma tidy_new_root : tidy new_root.
Proof.
  split; [done|]. intros ks parent k c Hparent Hc.
  destruct ks; simpl in *; by simplify_eq.
Qed.

Lemma add_tidy n path h opt :
  tidy n -> tidy (add n path (Some h) opt).1.
Proof.
  intros [Hroot Hbelow]. split.
  - destruct (add_keeps n path (Some h) opt [] n eq_refl)
      as (n' & [= <-] & _ & _ & -> & _). done.
  - unfold add. destruct (add_scan (segments path) 0) as [e|stars]; [done|].
    destruct (add_loop _ _ _ _ _ true false n) as [n' e] eqn:Hadd.
    eapply add_loop_tidy; [apply add_inv_init|done|done|exact Hadd].
Qed.

Lemma Handle_tidy r method path handler optionFns :
  (forall m t, trees r !! m = Some t -> tidy t) ->
  forall m t,
    trees (Handle r method path handler optionFns).1 !! m = Some t -> tidy t.
Proof.
  intros Hr m t. rewrite Handle_unfold; simpl.
  destruct (decide (m = method)) as [->|Hne].
  - rewrite lookup_insert_eq. intros [= <-]. apply add_tidy.
    unfold tree_of. destruct (trees r !! method) as [t0|] eqn:Ht0; simpl.
    + by eapply Hr.
    + apply tidy_new_root.
  - rewrite lookup_insert_ne by done. apply Hr.
Qed.

(** The tries of a built router are tidy. *)
Lemma built_tries_tidy r regs m t :
  built r regs -> trees r !! m = Some t -> tidy t.
Proof.
  intros Hbuilt. revert m t.
  induction Hbuilt as [|r regs method path handler fns _ IH _
                       |r regs method path handler fns err _ IH _];
    intros m t.
  - unfold New; simpl. by rewrite lookup_empty.
  - by apply Handle_tidy.
  - by apply Handle_tidy.
Qed.

(** X8: the tries of a router that calls of [Handle] have built from [New]
    keep their shape.  The root has no handler; below it, every node is
    filed under its own key, has a parameter name only under the key
    ["*"], has an option, has a handler when it has no children (no
    branch ends without a route), and has the star flag only below a node
    without handler. *)
Theorem built_tidy r regs m t :
  built r regs -> trees r !! m = Some t -> tidy t.
Proof. apply built_tries_tidy. Qed.

Lemma built_tidy_witness :
  tidy (tree_of (Handle (Handle New "GET" "/posts/*id" None []).1
                        "GET" "/posts/:id/edit" None []).1 "GET").
Proof.
  apply (built_tidy
           (Handle (Handle New "GET" "/posts/*id" None []).1
                   "GET" "/posts/:id/edit" None []).1
           [("GET", "/posts/:id/edit", Noop, new_option []);
            ("GET", "/posts/*id", Noop, new_option [])] "GET").
  - apply (built_ok _ _ "GET" "/posts/:id/edit" None []).
    + apply (built_ok New [] "GET" "/posts/*id" None []);
        [apply built_New|reflexivity].
    + reflexivity.
  - reflexivity.
Defined.

(** ** What a search returns was registered *)

Section Origin.

Variables (path : string) (handler : option HandlerFunc)
          (opt : RouterOption) (stars : nat).

(** The nodes of the chain that [add] makes carry the pattern and the
    option of the registration, and only the handler of the
    registration. *)
Lemma chain_nodes slice current ks c :
  Children current = ∅ -> Path current = path ->
  Option current = Some opt -> Handler current = None ->
  node_at (chain path handler opt stars slice current) ks = Some c ->
  Path c = path /\ Option c = Some opt /\
  (Handler c = None \/ Handler c = handler).
Proof.
  revert current ks.
  induction slice as [|k rest IH]; intros current ks Hch HP HO HH.
  - destruct ks as [|k0 ks]; simpl.
    + intros [= <-]. simpl. auto.
    + by rewrite Hch, lookup_empty.
  - rewrite chain_cons. destruct ks as [|k0 ks].
    + intros [= <-]. simpl. auto.
    + destruct (decide (k0 = (add_key k).1)) as [->|Hne].
      * rewrite node_at_set_child_eq. by apply IH.
      * rewrite node_at_set_child_ne by done. simpl.
        by rewrite Hch, lookup_empty.
Qed.

(** After the loop of [add], a node of the trie is one that was there,
    with its fields, or one that this registration has made. *)
Lemma add_loop_origin slice starPrev current current' err ks c' :
  add_loop path handler opt stars slice true starPrev current =
    (current', err) ->
  node_at current' ks = Some c' ->
  (exists c, node_at current ks = Some c /\ same_fields c c') \/
  (err = None /\ Path c' = path /\ Option c' = Some opt /\
   (Handler c' = None \/ Handler c' = handler)).
Proof.
  revert starPrev current current' err ks.
  induction slice as [|k rest IH]; intros starPrev current current' err ks.
  - intros [= <- <-] Hc. left. eauto using same_fields_refl.
  - cbn [add_loop]. destruct (add_key k) as [k' param] eqn:Hkey.
    destruct ((0 <? stars)%nat && starPrev) eqn:Hsp.
    { destruct (Children current !! k'); intros [= <- <-] Hc; left;
        eauto using same_fields_refl. }
    destruct (Children current !! k') as [next|] eqn:Hk.
    + case_add_loop next' e Hrec. intros [= <- <-] Hc.
      destruct ks as [|k0 ks].
      * left. simpl in *. simplify_eq. eexists. split; [done|].
        by repeat split.
      * destruct (decide (k0 = k')) as [->|Hne].
        -- rewrite node_at_set_child_eq in Hc.
           destruct (IH _ _ _ _ _ Hrec Hc) as [(c & Hc0 & Hsame)|Hnew];
             [left|by right].
           exists c. split; [|done]. simpl. by rewrite Hk.
        -- rewrite node_at_set_child_ne in Hc by done. left.
           eauto using same_fields_refl.
    + rewrite add_loop_fresh by auto. intros [= <- <-] Hc.
      destruct ks as [|k0 ks].
      * left. simpl in *. simplify_eq. eexists. split; [done|].
        by repeat split.
      * destruct (decide (k0 = k')) as [->|Hne].
        -- rewrite node_at_set_child_eq in Hc. right. split; [done|].
           by apply (chain_nodes rest
                       (mkNode path k' ∅ None param (0 <? stars)%nat (Some opt))
                       ks c').
        -- rewrite node_at_set_child_ne in Hc by done. left.
           eauto using same_fields_refl.
Qed.

End Origin.

Lemma made_by_same_fields regs m c c' :
  same_fields c c' -> made_by regs m c -> made_by regs m c'.
Proof.
  intros (HP & _ & HH & _ & _ & HO) (h & o & Hin & Ho & Hh).
  exists h, o. rewrite HP, HO, HH. done.
Qed.

Lemma made_by_more regs reg m c : made_by regs m c -> made_by (reg :: regs) m c.
Proof.
  intros (h & o & Hin & Ho & Hh). exists h, o. split; [|done].
  by apply elem_of_cons; right.
Qed.

(** Every node below the root of a trie was made by a registration that
    succeeded under the method of the trie. *)
Lemma built_made_by r regs m t ks c :
  built r regs -> trees r !! m = Some t -> ks <> [] ->
  node_at t ks = Some c -> made_by regs m c.
Proof.
  intros Hbuilt. revert m t ks c.
  assert (Hstep : forall r regs method path handler fns m t ks c,
    (forall m t ks c, trees r !! m = Some t -> ks <> [] ->
                      node_at t ks = Some c -> made_by regs m c) ->
    trees (Handle r method path handler fns).1 !! m = Some t -> ks <> [] ->
    node_at t ks = Some c ->
    made_by regs m c \/
    ((Handle r method path handler fns).2 = None /\ m = method /\
     Path c = path /\ Option c = Some (new_option fns) /\
     (Handler c = None \/ Handler c = Some (default Noop handler)))).
  { clear. intros r regs method path handler fns m t ks c IH.
    rewrite Handle_unfold; simpl.
    destruct (decide (m = method)) as [->|Hne].
    - rewrite lookup_insert_eq. intros [= <-] Hks Hc.
      unfold add in *. destruct (add_scan (segments path) 0) as [e|stars].
      + left. simpl in Hc. unfold tree_of in Hc.
        destruct (trees r !! method) as [t0|] eqn:Ht0; simpl in Hc.
        * by eapply IH.
        * destruct ks; [done|]. by simpl in Hc.
      + destruct (add_loop _ _ _ _ _ true false (tree_of r method))
          as [t' e] eqn:Hadd. simpl in *.
        destruct (add_loop_origin _ _ _ _ _ _ _ _ _ _ _ Hadd Hc)
          as [(c0 & Hc0 & Hsame)|(He & HP & HO & HH)]; [left|right].
        2: { split; [done|]. split; [done|]. done. }
        eapply made_by_same_fields; [done|].
        unfold tree_of in Hc0.
        destruct (trees r !! method) as [t0|] eqn:Ht0; simpl in Hc0.
        * by eapply IH.
        * destruct ks; [done|]. by simpl in Hc0.
    - rewrite lookup_insert_ne by done. intros Ht Hks Hc. left. by eapply IH. }
  induction Hbuilt as [|r regs method path handler fns _ IH Hok
                       |r regs method path handler fns err _ IH Herr];
    intros m t ks c Ht Hks Hc.
  - unfold New in Ht; simpl in Ht. by rewrite lookup_empty in Ht.
  - destruct (Hstep _ _ _ _ _ _ _ _ _ _ IH Ht Hks Hc)
      as [Hold|(_ & -> & HP & HO & HH)].
    + by apply made_by_more.
    + exists (default Noop handler), (new_option fns). rewrite HP.
      split; [by apply elem_of_cons; left|done].
  - destruct (Hstep _ _ _ _ _ _ _ _ _ _ IH Ht Hks Hc)
      as [Hold|(Hok & _)]; [done|congruence].
Qed.

Lemma node_at_app n ks1 ks2 c :
  node_at n ks1 = Some c -> node_at n (ks1 ++ ks2)%list = node_at c ks2.
Proof.
  revert n. induction ks1 as [|k ks1 IH]; intros n; simpl.
  - by intros [= ->].
  - destruct (Children n !! k); [apply IH|done].
Qed.

Lemma find_child_node_at cur k next :
  find_child cur k = Some next ->
  exists k', Children cur !! k' = Some next.
Proof.
  unfold find_child. destruct (Children cur !! k) as [c|] eqn:Hk.
  - intros [= ->]. by exists k.
  - intros Hstar. by exists "*".
Qed.

(** The loop of [find] only moves down the trie: what it returns, and
    where it ends, is a node below the one it started from. *)
Lemma find_loop_node_at slice cur params :
  match find_loop cur params slice with
  | Returned (Some node) _ => exists ks, ks <> [] /\ node_at cur ks = Some node
  | Returned None _ => True
  | Fell_through c _ =>
      exists ks, length ks = length slice /\ node_at cur ks = Some c
  end.
Proof.
  revert cur params. induction slice as [|k rest IH]; intros cur params.
  - simpl. by exists [].
  - rewrite find_loop_cons.
    destruct (find_child cur k) as [next|] eqn:Hchild; [|done].
    destruct (find_child_node_at _ _ _ Hchild) as [k' Hk'].
    unfold find_enter.
    destruct (negb (Param next =? "")); [destruct (Star next)|].
    + exists [k']. split; [done|]. simpl. by rewrite Hk'.
    + specialize (IH next (<[Param next := k]> params)).
      destruct (find_loop next _ rest) as [[node|] ps|c ps]; [| done |].
      * destruct IH as (ks & _ & Hks). exists (k' :: ks). split; [done|].
        simpl. by rewrite Hk'.
      * destruct IH as (ks & Hlen & Hks). exists (k' :: ks).
        split; [by simpl; rewrite Hlen|].
        simpl. by rewrite Hk'.
    + specialize (IH next params).
      destruct (find_loop next _ rest) as [[node|] ps|c ps]; [| done |].
      * destruct IH as (ks & _ & Hks). exists (k' :: ks). split; [done|].
        simpl. by rewrite Hk'.
      * destruct IH as (ks & Hlen & Hks). exists (k' :: ks).
        split; [by simpl; rewrite Hlen|].
        simpl. by rewrite Hk'.
Qed.

(** [find] never returns the node it starts from. *)
Lemma find_node_at n path node params :
  find n path = (Some node, params) ->
  exists ks, ks <> [] /\ node_at n ks = Some node.
Proof.
  unfold find. destruct (segments_cons path) as (k & rest & Hseg).
  pose proof (find_loop_node_at (segments path) n ∅) as Hloop.
  destruct (find_loop n ∅ (segments path)) as [[node0|] ps|c ps].
  - intros [= <- <-]. done.
  - done.
  - destruct Hloop as (ks & Hlen & Hks). rewrite Hseg in Hlen.
    unfold find_finish, find_star_fix.
    destruct (Children c !! "*") as [w|] eqn:Hw; [destruct (Star w)|].
    + destruct (Handler w); [|done]. intros [= <- <-].
      exists (ks ++ ["*"])%list. split; [by destruct ks|].
      rewrite (node_at_app n ks ["*"] c) by done. simpl. by rewrite Hw.
    + destruct (Handler c); [|done]. intros [= <- <-].
      exists ks. split; [by destruct ks|done].
    + destruct (Handler c); [|done]. intros [= <- <-].
      exists ks. split; [by destruct ks|done].
Qed.

(** A node that [Search] returns comes from the trie of the method or from
    the one of ["ANY"]. *)
Lemma Search_some r method path node params :
  Search r method path = (Some node, params) ->
  exists m t ps,
    (m = method \/ m = MethodAny) /\ trees r !! m = Some t /\
    find t path = (Some node, ps) /\ params = Some ps.
Proof.
  rewrite Search_is_policy. unfold Search_policy, found.
  destruct (trees r !! method) as [t|] eqn:Ht.
  - destruct (find t path) as [[node0|] ps] eqn:Hf.
    + intros [= <- <-]. exists method, t, ps. auto.
    + destruct (trees r !! MethodAny) as [a|] eqn:Ha; [|done].
      destruct (find a path) as [node0 ps'] eqn:Hfa; simpl.
      intros [= -> <-]. exists MethodAny, a, ps'. auto.
  - destruct (trees r !! MethodAny) as [a|] eqn:Ha; [|done].
    destruct (find a path) as [node0 ps'] eqn:Hfa; simpl.
    intros [= -> <-]. exists MethodAny, a, ps'. auto.
Qed.

(** X9: on a router that calls of [Handle] have built from [New], a node
    that [Search] returns was made by a registration that succeeded under
    the method searched or under ["ANY"]: it carries the pattern and the
    option of that registration (its option is never nil), and its
    handler, if it has one, is the handler of that registration. *)
Theorem Search_returns_registered r regs method path node params :
  built r regs ->
  Search r method path = (Some node, params) ->
  exists m h o,
    (m = method \/ m = MethodAny) /\
    (m, Path node, h, o) ∈ regs /\
    Option node = Some o /\
    (Handler node = None \/ Handler node = Some h).
Proof.
  intros Hbuilt HS.
  destruct (Search_some _ _ _ _ _ HS) as (m & t & ps & Hm & Ht & Hf & _).
  destruct (find_node_at _ _ _ _ Hf) as (ks & Hks & Hnode).
  destruct (built_made_by r regs m t ks node Hbuilt Ht Hks Hnode)
    as (h & o & Hin & Ho & Hh).
  by exists m, h, o.
Qed.

Lemma Search_returns_registered_witness :
  exists m h o,
    (m = "GET" \/ m = MethodAny) /\
    (m, "/files/*path", h, o)
      ∈ [(MethodAny, "/files/*path", Func "files",
          new_option [Tag (Some "static")])] /\
    o = {| RouterOption_Tag := Some "static" |}.
Proof.
  destruct (Search_returns_registered
              (Handle New MethodAny "/files/*path" (Some (Func "files"))
                      [Tag (Some "static")]).1
              [(MethodAny, "/files/*path", Func "files",
                new_option [Tag (Some "static")])]
              "GET" "/files/a/b"
              (wildcard_node "/files/*path" (Func "files")
                             (new_option [Tag (Some "static")]) "*path")
              (Some {[ "path" := "/a/b" ]}))
    as (m & h & o & Hm & Hin & Ho & _).
  - apply (built_ok New [] MethodAny "/files/*path" (Some (Func "files"))
             [Tag (Some "static")]); [apply built_New|reflexivity].
  - vm_compute. reflexivity.
  - exists m, h, o. split; [done|]. split; [done|].
    simpl in Ho. by injection Ho as <-.
Defined.


(** ** A static route stays *)

Section LastNode.

Variables (path : string) (handler : option HandlerFunc)
          (opt : RouterOption) (stars : nat).

(** The last node of the chain that [add] makes has the handler. *)
Lemma chain_last slice current :
  exists c,
    node_at (chain path handler opt stars slice current) (keys slice)
      = Some c /\
    Handler c = handler /\
    (Path current = path -> Path c = path) /\
    (Option current = Some opt -> Option c = Some opt).
Proof.
  revert current. induction slice as [|k rest IH]; intros current.
  - exists (set_handler current handler). by repeat split.
  - rewrite chain_cons. cbn [keys map]. rewrite node_at_set_child_eq.
    destruct (IH (fresh_node path opt stars k)) as (c & Hc & Hh & HP & HO).
    exists c. split; [done|]. split; [done|].
    split; intros _; [by apply HP|by apply HO].
Qed.

(** A registration that succeeds leaves, at the end of the keys of its
    pattern, a node with its pattern, its handler and its option. *)
Lemma add_loop_success_node slice starPrev current current' :
  add_inv stars true starPrev current ->
  add_loop path handler opt stars slice true starPrev current =
    (current', None) ->
  exists c,
    node_at current' (keys slice) = Some c /\
    Handler c = handler /\ Path c = path /\ Option c = Some opt.
Proof.
  revert starPrev current current'.
  induction slice as [|k rest IH]; intros starPrev current current' Hinv.
  - done.
  - cbn [add_loop keys map]. destruct (add_key k) as [k' param] eqn:Hkey.
    cbn [fst].
    destruct ((0 <? stars)%nat && starPrev) eqn:Hsp.
    { by destruct (Children current !! k'). }
    destruct (Children current !! k') as [next|] eqn:Hk.
    + destruct (add_inv_found _ _ _ _ _ _ Hinv Hk) as [_ Hinv'].
      case_add_loop next' e Hrec. intros [= <- ->].
      rewrite node_at_set_child_eq. by eapply IH.
    + rewrite add_loop_fresh by auto. intros [= <-].
      rewrite node_at_set_child_eq.
      destruct (chain_last rest
                  (mkNode path k' ∅ None param (0 <? stars)%nat (Some opt)))
        as (c & Hc & Hh & HP & HO).
      exists c. split; [done|]. split; [done|].
      split; [by apply HP|by apply HO].
Qed.

End LastNode.

Lemma add_success_node n path handler opt n' :
  add n path handler opt = (n', None) ->
  exists c,
    node_at n' (keys (segments path)) = Some c /\
    Handler c = handler /\ Path c = path /\ Option c = Some opt.
Proof.
  intros Hadd. destruct (add_success _ _ _ _ _ Hadd) as [Hs _].
  rewrite add_loop_of_add in Hadd by done.
  eapply add_loop_success_node; [apply add_inv_init|exact Hadd].
Qed.

Lemma keys_static (slice : list string) :
  Forall static slice -> keys slice = slice.
Proof.
  induction 1 as [|k slice [Hk _] _ IH]; [done|].
  cbn [keys map]. rewrite add_key_literal by done. simpl.
  by f_equal.
Qed.

(** Through a tidy trie, static segments lead down their own keys, and
    bind nothing. *)
Lemma find_loop_static cur params slice c :
  tidy_below cur -> Forall static slice -> node_at cur slice = Some c ->
  find_loop cur params slice = Fell_through c params.
Proof.
  intros Htidy Hstatic. revert cur Htidy.
  induction Hstatic as [|k rest [_ Hk] _ IH]; intros cur Htidy; simpl.
  - by intros [= ->].
  - unfold find_child.
    destruct (Children cur !! k) as [next|] eqn:Hnext; [|done].
    destruct (tidy_below_child _ _ _ Htidy Hnext)
      as [(_ & Hparam & _) Hbelow].
    destruct (String.eqb_spec (Param next) "") as [_|Hne];
      [|by apply Hparam in Hne].
    simpl. by apply IH.
Qed.

Lemma later_built r regs r' :
  built r regs -> later r r' -> exists regs', built r' regs'.
Proof.
  intros Hbuilt Hlater.
  induction Hlater as [|r' method path handler fns _ [regs' IH]]; [by eauto|].
  destruct (Handle r' method path handler fns).2 as [err|] eqn:Herr.
  - eexists. by eapply built_failed.
  - eexists. by eapply built_ok.
Qed.

(** X10: a static route stays.  When a pattern of plain segments (no
    capture, no bare [*]) has been registered on a router built by calls of
    [Handle], then, whatever was registered before it and whatever calls
    of [Handle] follow, the search of the pattern itself under its method
    returns the node of that registration, with its handler and its
    option, and no params. *)
Theorem static_route_stays r regs method path handler optionFns r' :
  built r regs ->
  (Handle r method path handler optionFns).2 = None ->
  Forall static (segments path) ->
  later (Handle r method path handler optionFns).1 r' ->
  exists node,
    Search r' method path = (Some node, Some ∅) /\
    Handler node = Some (default Noop handler) /\
    Path node = path /\
    Option node = Some (new_option optionFns).
Proof.
  intros Hbuilt Hok Hstatic Hlater.
  pose proof (built_ok _ _ _ _ _ _ Hbuilt Hok) as Hbuilt1.
  destruct (later_built _ _ _ Hbuilt1 Hlater) as [regs' Hbuilt'].
  rewrite Handle_error in Hok.
  destruct (add (tree_of r method) path (Some (default Noop handler))
                (new_option optionFns)) as [t1 e] eqn:Hadd.
  simpl in Hok; subst e.
  destruct (add_success_node _ _ _ _ _ Hadd) as (c & Hc & Hh & HP & HO).
  rewrite keys_static in Hc by done.
  assert (Ht1 : trees (Handle r method path handler optionFns).1 !! method
                = Some t1).
  { rewrite Handle_unfold, Hadd; simpl. by rewrite lookup_insert_eq. }
  destruct (later_keeps _ _ _ _ _ _ Hlater Ht1 Hc)
    as (t' & c' & Ht' & Hc' & HP' & _ & HH' & _ & _ & HO').
  destruct (built_tries_tidy _ _ _ _ Hbuilt' Ht') as [_ Htidy].
  exists c'. split; [|by rewrite HH', HP', HO'].
  eapply Search_hit; [exact Ht'|].
  unfold find. rewrite (find_loop_static t' ∅ (segments path) c') by done.
  unfold find_finish, find_star_fix.
  destruct (Children c' !! "*") as [w|] eqn:Hw.
  - destruct (Star w) eqn:Hstar.
    + destruct (Htidy _ _ _ _ Hc' Hw) as (_ & _ & _ & _ & Hparent).
      rewrite Hparent in HH' by done. congruence.
    + by rewrite HH', Hh.
  - by rewrite HH', Hh.
Qed.

Lemma static_route_stays_witness :
  exists node,
    Search (Handle (Handle (Handle New "GET" "/posts/:id" None []).1
                           "GET" "/posts/new" (Some (Func "new")) []).1
                   "GET" "/posts/new/:x" None []).1 "GET" "/posts/new"
      = (Some node, Some ∅) /\
    Handler node = Some (Func "new") /\
    Path node = "/posts/new" /\
    Option node = Some (new_option []).
Proof.
  apply (static_route_stays
           (Handle New "GET" "/posts/:id" None []).1
           [("GET", "/posts/:id", Noop, new_option [])]
           "GET" "/posts/new" (Some (Func "new")) []).
  - apply (built_ok New [] "GET" "/posts/:id" None []);
      [apply built_New|reflexivity].
  - reflexivity.
  - vm_compute. repeat constructor; discriminate.
  - apply later_Handle, later_now.
Defined.


(** ** The method wrappers *)

Lemma wrapped_methods r :
  wrapped r ->
  forall m, is_Some (trees r !! m) -> m ∈ wrapper_methods.
Proof.
  assert (Hstep : forall r method path handle fns,
    method ∈ wrapper_methods ->
    (forall m, is_Some (trees r !! m) -> m ∈ wrapper_methods) ->
    forall m, is_Some (trees (Handle r method path handle fns).1 !! m) ->
              m ∈ wrapper_methods).
  { clear r. intros r method path handle fns Hmethod IH m.
    rewrite Handle_trees.
    destruct (decide (m = method)) as [->|Hne]; [done|].
    rewrite lookup_insert_ne by done. apply IH. }
  induction 1 as [|r0 path handle fns _ IH|r0 path handle fns _ IH
                  |r0 path handle fns _ IH|r0 path handle fns _ IH
                  |r0 path handle fns _ IH|r0 path handle fns _ IH].
  - intros m [t Ht]. unfold New in Ht; simpl in Ht.
    by rewrite lookup_empty in Ht.
  - apply Hstep; [|done]. unfold wrapper_methods. repeat constructor.
  - apply Hstep; [|done]. unfold wrapper_methods. repeat constructor.
  - apply Hstep; [|done]. unfold wrapper_methods. repeat constructor.
  - apply Hstep; [|done]. unfold wrapper_methods. repeat constructor.
  - apply Hstep; [|done]. unfold wrapper_methods. repeat constructor.
  - apply Hstep; [|done]. unfold wrapper_methods. repeat constructor.
Qed.

(** X11: a router filled only through [GET], [POST], [DELETE], [PUT],
    [PATCH] and [HEAD] has tries for these methods only and none for
    ["ANY"]: every search resolves in the trie of its own method alone, a
    route of another method is never returned, and a miss returns no node
    and a nil map. *)
Theorem wrappers_isolate_methods r :
  wrapped r ->
  trees r !! MethodAny = None /\
  (forall m, is_Some (trees r !! m) -> m ∈ wrapper_methods) /\
  (forall method path, Search r method path = Search_own r method path).
Proof.
  intros Hw. pose proof (wrapped_methods r Hw) as Hmethods.
  assert (Hany : trees r !! MethodAny = None).
  { destruct (trees r !! MethodAny) as [a|] eqn:Ha; [|done].
    assert (MethodAny ∈ wrapper_methods) as Hin by (apply Hmethods; eauto).
    unfold wrapper_methods, MethodAny in Hin.
    repeat (apply elem_of_cons in Hin as [Hin|Hin]; [discriminate|]).
    by apply elem_of_nil in Hin. }
  split; [done|]. split; [done|].
  intros method path. rewrite Search_is_policy.
  unfold Search_policy, Search_own. rewrite Hany.
  destruct (trees r !! method) as [t|]; [|done].
  by destruct (find t path) as [[node|] params].
Qed.

Lemma wrappers_isolate_methods_witness :
  Search (POST (GET New "/posts" (Some (Func "list")) []).1
               "/posts" (Some (Func "create")) []).1 "DELETE" "/posts"
    = (None, None).
Proof.
  rewrite (proj2 (proj2 (wrappers_isolate_methods
             (POST (GET New "/posts" (Some (Func "list")) []).1
                   "/posts" (Some (Func "create")) []).1
             (wrapped_POST _ _ _ _ (wrapped_GET _ _ _ _ wrapped_New))))).
  reflexivity.
Defined.

(** ** How many nodes a registration makes *)



(** ** Which paths a trailing wildcard takes *)

Section ChainWildcardOnly.

Variables (path : string) (h : HandlerFunc) (opt : RouterOption).

(** In the chain of static segments and a trailing wildcard, only a path
    that begins with the static segments finds a node. *)
Lemma find_from_chain_wildcard_only lits s qs current params :
  Children current = ∅ -> Handler current = None ->
  Forall static lits ->
  is_Some
    (find_from (chain path (Some h) opt 1 (lits ++ [s])%list current)
               params qs).1 ->
  exists rest, qs = (lits ++ rest)%list.
Proof.
  intros Hch Hh Hlits. revert qs current params Hch Hh.
  induction Hlits as [|l lits [Hl Hbare] _ IH];
    intros qs current params Hch Hh Hsome.
  - by exists qs.
  - change ((l :: lits) ++ [s])%list with (l :: (lits ++ [s]))%list in Hsome.
    assert (Hkey : (add_key l).1 = l) by by rewrite add_key_literal.
    destruct qs as [|q qs].
    + rewrite find_from_nil in Hsome.
      unfold find_finish, find_star_fix in Hsome.
      rewrite chain_cons in Hsome. cbn [set_child Children Handler] in Hsome.
      rewrite Hch, Hkey, lookup_insert_ne, lookup_empty in Hsome by done.
      unfold set_child in Hsome; simpl in Hsome. rewrite Hh in Hsome.
      by apply is_Some_None in Hsome.
    + rewrite find_from_cons, find_child_chain in Hsome by done.
      rewrite Hkey in Hsome.
      destruct (decide (q = l)) as [->|Hq].
      * unfold find_enter in Hsome. rewrite chain_Param, chain_Star in Hsome.
        cbn [fresh_node Param Star] in Hsome.
        rewrite add_key_literal in Hsome by done.
        cbn [snd String.eqb negb] in Hsome.
        destruct (IH qs (fresh_node path opt 1 l) params) as [rest ->];
          [done|done|done|].
        by exists rest.
      * rewrite decide_False in Hsome by done.
        by apply is_Some_None in Hsome.
Qed.

End ChainWildcardOnly.

(** X13: a pattern of static segments and a trailing [*name], registered
    first under its method in a router without ["ANY"] trie, is matched by
    exactly the paths whose segments begin with the static segments of the
    pattern, whatever follows them, nothing included. *)
Theorem Search_wildcard_matches_exactly r method pattern handler optionFns
    lits s path :
  trees r !! method = None ->
  trees r !! MethodAny = None ->
  segments pattern = (lits ++ [s])%list ->
  Forall static lits ->
  has_sigil "*" s = true ->
  is_Some (Search (Handle r method pattern handler optionFns).1 method path).1
  <-> exists rest, segments path = (lits ++ rest)%list.
Proof.
  intros Hm Hany Hpat Hlits Hs.
  assert (Hliteral : Forall (fun k => is_capture k = false) lits).
  { eapply Forall_impl; [exact Hlits|]. by intros k [Hk _]. }
  pose proof (star_count_trailing lits s Hliteral Hs) as Hcount.
  rewrite Handle_first by (done || rewrite Hpat; lia).
  rewrite Hpat, Hcount.
  rewrite Search_is_policy. unfold Search_policy; simpl.
  rewrite lookup_insert_eq, find_is_find_from.
  split.
  - intros Hsome.
    apply (find_from_chain_wildcard_only pattern (default Noop handler)
             (new_option optionFns) lits s (segments path) new_root ∅
             eq_refl eq_refl Hlits).
    destruct (find_from _ ∅ (segments path)) as [[node|] params] eqn:Hf;
      [by eexists|].
    simpl in Hsome.
    destruct (decide (method = MethodAny)) as [->|Hne].
    + rewrite lookup_insert_eq, find_is_find_from, Hf in Hsome.
      by apply is_Some_None in Hsome.
    + rewrite lookup_insert_ne, Hany in Hsome by done.
      by apply is_Some_None in Hsome.
  - intros [rest ->]. rewrite find_from_chain_wildcard by done. by eexists.
Qed.

Lemma Search_wildcard_matches_exactly_witness :
  is_Some (Search (Handle New "GET" "/static/*file" None []).1
                  "GET" "/static").1.
Proof.
  apply (proj2 (Search_wildcard_matches_exactly New "GET" "/static/*file"
                  None [] ["static"] "*file" "/static"
                  eq_refl eq_refl eq_refl
                  ltac:(repeat constructor; discriminate) eq_refl)).
  by exists [].
Defined.

(** ** Registration is local to the first segment *)

(** The loop of [add] writes at most one child of the node it starts from:
    the one of the first segment's key. *)
Lemma add_loop_root_children path handler opt stars k1 rest duplicate
    starPrev current k :
  k <> (add_key k1).1 ->
  Children (add_loop path handler opt stars (k1 :: rest) duplicate starPrev
                     current).1 !! k = Children current !! k.
Proof.
  intros Hk. cbn [add_loop]. destruct (add_key k1) as [k' param].
  simpl in Hk.
  destruct ((0 <? stars)%nat && starPrev).
  { destruct (Children current !! k'); [|done].
    unfold add_finish. by destruct duplicate. }
  destruct (Children current !! k') as [next|].
  - case_add_loop next' e Hrec. simpl. by rewrite lookup_insert_ne.
  - case_add_loop next' e Hrec. simpl. by rewrite lookup_insert_ne.
Qed.

(** [find] on a path of at least one segment reads, of the root, only the
    child of the first segment and the child ["*"]. *)
Lemma find_from_root_children t t' params q1 qs :
  Children t' !! q1 = Children t !! q1 ->
  Children t' !! "*" = Children t !! "*" ->
  find_from t' params (q1 :: qs) = find_from t params (q1 :: qs).
Proof.
  intros Hq Hstar. unfold find_from. cbn [find_loop]. unfold find_child.
  by rewrite Hq, Hstar.
Qed.

Lemma add_local n pattern handler opt path k1 ks q1 qs :
  segments pattern = k1 :: ks -> segments path = q1 :: qs ->
  (add_key k1).1 <> q1 -> (add_key k1).1 <> "*" ->
  find (add n pattern handler opt).1 path = find n path.
Proof.
  intros Hpat Hpath Hq Hstar. rewrite !find_is_find_from, Hpath.
  unfold add. rewrite Hpat.
  destruct (add_scan (k1 :: ks) 0) as [e|stars]; [done|].
  apply find_from_root_children; by apply add_loop_root_children.
Qed.

(** X14: a registration whose first segment is a literal one changes the
    node found for no path that begins with another segment, under any
    method; when its method had a trie already, the whole result of
    [Search], params included, is as before. *)
Theorem Handle_local r method pattern handler optionFns path k1 ks q1 qs m :
  segments pattern = k1 :: ks -> segments path = q1 :: qs ->
  (add_key k1).1 <> q1 -> (add_key k1).1 <> "*" ->
  (Search (Handle r method pattern handler optionFns).1 m path).1 =
    (Search r m path).1 /\
  (is_Some (trees r !! method) ->
   Search (Handle r method pattern handler optionFns).1 m path =
     Search r m path).
Proof.
  intros Hpat Hpath Hq Hstar.
  pose proof (add_local (tree_of r method) pattern
                (Some (default Noop handler)) (new_option optionFns) path
                k1 ks q1 qs Hpat Hpath Hq Hstar) as Hfind.
  rewrite !Search_is_policy, Handle_unfold. unfold Search_policy; simpl.
  destruct (add _ _ _ _) as [t' e]; simpl in *.
  unfold tree_of in Hfind.
  destruct (trees r !! method) as [t|] eqn:Ht; simpl in Hfind.
  - assert (Hlook : forall x (f : Node -> option Node * option RouterParams) d,
      (forall a b, find a path = find b path -> f a = f b) ->
      match (<[method := t']> (trees r)) !! x with
      | Some a => f a | None => d end =
      match trees r !! x with Some a => f a | None => d end).
    { intros x f d Hf. destruct (decide (x = method)) as [->|Hx].
      - rewrite lookup_insert_eq, Ht. by apply Hf.
      - by rewrite lookup_insert_ne. }
    assert (Heq :
      match (<[method := t']> (trees r)) !! m with
      | Some t0 =>
          match find t0 path with
          | (Some node, params) => (Some node, Some params)
          | (None, _) =>
              match (<[method := t']> (trees r)) !! MethodAny with
              | Some a => found (find a path)
              | None => (None, None)
              end
          end
      | None =>
          match (<[method := t']> (trees r)) !! MethodAny with
          | Some a => found (find a path)
          | None => (None, None)
          end
      end =
      match trees r !! m with
      | Some t0 =>
          match find t0 path with
          | (Some node, params) => (Some node, Some params)
          | (None, _) =>
              match trees r !! MethodAny with
              | Some a => found (find a path)
              | None => (None, None)
              end
          end
      | None =>
          match trees r !! MethodAny with
          | Some a => found (find a path)
          | None => (None, None)
          end
      end).
    { rewrite (Hlook MethodAny (fun a => found (find a path)) (None, None))
        by (by intros a b ->).
      apply (Hlook m (fun t0 =>
               match find t0 path with
               | (Some node, params) => (Some node, Some params)
               | (None, _) =>
                   match trees r !! MethodAny with
                   | Some a => found (find a path)
                   | None => (None, None)
                   end
               end)).
      by intros a b ->. }
    split; [by rewrite Heq|]. intros _. exact Heq.
  - split; [|by intros [? [=]]].
    rewrite find_new_root in Hfind.
    destruct (decide (m = method)) as [->|Hm].
    + rewrite lookup_insert_eq, Ht, Hfind.
      destruct (decide (method = MethodAny)) as [->|Hany].
      * by rewrite lookup_insert_eq, Ht, Hfind.
      * by rewrite lookup_insert_ne.
    + rewrite lookup_insert_ne by done.
      destruct (decide (method = MethodAny)) as [->|Hany].
      * rewrite lookup_insert_eq, Ht, Hfind.
        destruct (trees r !! m) as [t0|]; [|done].
        by destruct (find t0 path) as [[node|] params].
      * by rewrite lookup_insert_ne.
Qed.

Lemma Handle_local_witness :
  let r := (Handle New "GET" "/posts/:id" None []).1 in
  Search (Handle r "GET" "/users/*rest" None []).1 "GET" "/posts/7" =
    Search r "GET" "/posts/7".
Proof.
  intros r.
  apply (Handle_local r "GET" "/users/*rest" None [] "/posts/7"
           "users" ["*rest"] "posts" ["7"] "GET"
           eq_refl eq_refl
           ltac:(vm_compute; discriminate) ltac:(vm_compute; discriminate)).
  by eexists.
Defined.

(** ** Where every node found has a handler *)

Section NewNodes.

Variables (path : string) (handler : option HandlerFunc)
          (opt : RouterOption) (stars : nat).

(** The nodes below the head of a chain have the star flag of the
    registration; when the segments are literal ones and a last segment,
    only the node of the last segment can have a parameter name, and it
    has the handler. *)
Lemma chain_below slice current k0 ks c :
  Children current = ∅ ->
  node_at (chain path handler opt stars slice current) (k0 :: ks) = Some c ->
  Star c = (0 <? stars)%nat /\
  (forall lits s,
     slice = (lits ++ [s])%list ->
     Forall (fun k => is_capture k = false) lits ->
     Param c <> "" -> Handler c = handler).
Proof.
  revert current k0 ks.
  induction slice as [|k rest IH]; intros current k0 ks Hch.
  - simpl. by rewrite Hch, lookup_empty.
  - rewrite chain_cons.
    destruct (decide (k0 = (add_key k).1)) as [->|Hne].
    + rewrite node_at_set_child_eq. destruct ks as [|k1 ks].
      * intros [= <-]. split; [by rewrite chain_Star|].
        intros lits s Heq Hlits. rewrite chain_Param. simpl.
        destruct lits as [|l lits]; simpl in Heq; simplify_eq.
        -- done.
        -- apply Forall_cons in Hlits as [Hl _].
           by rewrite add_key_literal.
      * intros Hc.
        destruct (IH (fresh_node path opt stars k) k1 ks eq_refl Hc)
          as [HS HP].
        split; [done|]. intros lits s Heq Hlits.
        destruct lits as [|l lits]; simpl in Heq; simplify_eq.
        apply Forall_cons in Hlits as [_ Hlits]. by apply (HP lits s).
    + rewrite node_at_set_child_ne by done. simpl.
      by rewrite Hch, lookup_empty.
Qed.

(** After the loop of [add], a node of the trie is one that was there,
    with its fields, or a new one as [chain_below] describes it. *)
Lemma add_loop_new_nodes slice starPrev current current' err ks c' :
  add_loop path handler opt stars slice true starPrev current =
    (current', err) ->
  node_at current' ks = Some c' ->
  (exists c, node_at current ks = Some c /\ same_fields c c') \/
  (Star c' = (0 <? stars)%nat /\
   forall lits s,
     slice = (lits ++ [s])%list ->
     Forall (fun k => is_capture k = false) lits ->
     Param c' <> "" -> Handler c' = handler).
Proof.
  revert starPrev current current' err ks.
  induction slice as [|k rest IH]; intros starPrev current current' err ks.
  - intros [= <- <-] Hc. left. eauto using same_fields_refl.
  - cbn [add_loop]. destruct (add_key k) as [k' param] eqn:Hkey.
    destruct ((0 <? stars)%nat && starPrev) eqn:Hsp.
    { destruct (Children current !! k'); intros [= <- <-] Hc; left;
        eauto using same_fields_refl. }
    destruct (Children current !! k') as [next|] eqn:Hk.
    + destruct rest as [|k2 rest].
      { cbn [add_loop add_finish]. intros [= <- <-].
        rewrite set_child_same by done. intros Hc. left.
        eauto using same_fields_refl. }
      case_add_loop next' e Hrec. intros [= <- <-] Hc.
      destruct ks as [|k0 ks].
      * left. simpl in *. simplify_eq. eexists. split; [done|].
        by repeat split.
      * destruct (decide (k0 = k')) as [->|Hne].
        -- rewrite node_at_set_child_eq in Hc.
           destruct (IH _ _ _ _ _ Hrec Hc) as [(c & Hc0 & Hsame)|[HS HP]].
           ++ left. exists c. split; [|done]. simpl. by rewrite Hk.
           ++ right. split; [done|]. intros lits s Heq Hlits.
              destruct lits as [|l lits]; simpl in Heq; simplify_eq.
              apply Forall_cons in Hlits as [_ Hlits].
              by apply (HP lits s).
        -- rewrite node_at_set_child_ne in Hc by done. left.
           eauto using same_fields_refl.
    + rewrite add_loop_fresh by auto. intros [= <- <-] Hc.
      destruct ks as [|k0 ks].
      * left. simpl in *. simplify_eq. eexists. split; [done|].
        by repeat split.
      * destruct (decide (k0 = k')) as [->|Hne].
        -- rewrite node_at_set_child_eq in Hc. right.
           destruct ks as [|k1 ks].
           ++ simpl in Hc. simplify_eq.
              split; [by rewrite chain_Star|].
              intros lits s Heq Hlits. rewrite chain_Param. simpl.
              destruct lits as [|l lits]; simpl in Heq; simplify_eq.
              ** done.
              ** apply Forall_cons in Hlits as [Hl _].
                 rewrite add_key_literal in Hkey by done. by simplify_eq.
           ++ destruct (chain_below rest
                          (mkNode path k' ∅ None param (0 <? stars)%nat
                                  (Some opt))
                          k1 ks c' eq_refl Hc) as [HS HP].
              split; [done|]. intros lits s Heq Hlits.
              destruct lits as [|l lits]; simpl in Heq; simplify_eq.
              apply Forall_cons in Hlits as [_ Hlits]. by apply (HP lits s).
        -- rewrite node_at_set_child_ne in Hc by done. left.
           eauto using same_fields_refl.
Qed.

End NewNodes.

Lemma wildcards_handled_new_root : wildcards_handled new_root.
Proof.
  intros [|k ks] c; simpl; [by intros [= <-]|].
  by rewrite lookup_empty.
Qed.

(** A registration whose wildcard is last keeps every stopping node with
    a handler. *)
Lemma add_wildcards_handled n path h opt :
  wildcard_last path -> wildcards_handled n ->
  wildcards_handled (add n path (Some h) opt).1.
Proof.
  intros Hlast Hn. unfold add.
  rewrite add_scan_spec by lia. simpl.
  destruct (1 <? star_count (segments path))%nat; [done|].
  destruct (add_loop _ _ _ _ _ true false n) as [n' e] eqn:Hadd. simpl.
  intros ks c' Hc' Hstar Hparam.
  destruct (add_loop_new_nodes _ _ _ _ _ _ _ _ _ _ _ Hadd Hc')
    as [(c & Hc & (_ & _ & HH & HP & HS & _))|[HS HP]].
  - rewrite HH. apply (Hn ks c Hc); congruence.
  - destruct Hlast as [H0|(lits & s & Hseg & Hlits & _)].
    + rewrite H0, Hstar in HS. discriminate HS.
    + by rewrite (HP lits s Hseg Hlits Hparam).
Qed.

Lemma built_wildcards_handled r regs m t :
  built r regs ->
  Forall (fun reg : registration => wildcard_last reg.1.1.2) regs ->
  trees r !! m = Some t -> wildcards_handled t.
Proof.
  intros Hbuilt. revert m t.
  assert (Htree : forall r0 method,
    (forall m t, trees r0 !! m = Some t -> wildcards_handled t) ->
    wildcards_handled (tree_of r0 method)).
  { intros r0 method Hr0. unfold tree_of.
    destruct (trees r0 !! method) as [t|] eqn:Ht; simpl; [by eapply Hr0|].
    apply wildcards_handled_new_root. }
  induction Hbuilt as [|r regs method path handler optionFns Hb IH Hok
                        |r regs method path handler optionFns err Hb IH Herr];
    intros m t Hregs.
  - unfold New; simpl. by rewrite lookup_empty.
  - apply Forall_cons in Hregs as [Hlast Hregs]. simpl in Hlast.
    rewrite Handle_unfold; simpl.
    destruct (decide (m = method)) as [->|Hm].
    + rewrite lookup_insert_eq. intros [= <-].
      apply add_wildcards_handled; [done|]. apply Htree. eauto.
    + rewrite lookup_insert_ne by done. eauto.
  - rewrite (Handle_failure_tree _ _ _ _ _ _ Herr).
    destruct (decide (m = method)) as [->|Hm].
    + rewrite lookup_insert_eq. intros [= <-]. apply Htree. eauto.
    + rewrite lookup_insert_ne by done. eauto.
Qed.

(** [find] returns a node that has a handler, or one at which it stopped
    before the end of the path. *)
Lemma find_loop_handler_or_star slice cur params node ps :
  find_loop cur params slice = Returned (Some node) ps ->
  Star node = true /\ Param node <> "".
Proof.
  revert cur params. induction slice as [|k rest IH]; intros cur params.
  - done.
  - cbn [find_loop]. destruct (find_child cur k) as [next|]; [|done].
    destruct (String.eqb_spec (Param next) "") as [He|Hne]; simpl.
    + apply IH.
    + destruct (Star next) eqn:Hstar; [|apply IH].
      by intros [= <- _].
Qed.

Lemma find_handler_or_star n path node params :
  find n path = (Some node, params) ->
  is_Some (Handler node) \/ (Star node = true /\ Param node <> "").
Proof.
  unfold find.
  destruct (find_loop n ∅ (segments path)) as [res ps|cur ps] eqn:Hloop.
  - intros [= -> ->]. right. by eapply find_loop_handler_or_star.
  - unfold find_finish. destruct (find_star_fix cur ps) as [c qs].
    destruct (Handler c) eqn:Hh; [|done].
    intros [= <- _]. left. by rewrite Hh.
Qed.

(** X15: on a router built by calls of [Handle] whose successful
    registrations have their [*name] wildcard, if any, as last segment
    after literal segments only, every node that [Search] returns has a
    handler. *)
Theorem Search_handler_present r regs method path node params :
  built r regs ->
  Forall (fun reg : registration => wildcard_last reg.1.1.2) regs ->
  Search r method path = (Some node, params) ->
  is_Some (Handler node).
Proof.
  intros Hbuilt Hregs Hsearch.
  apply Search_some in Hsearch as (m & t & ps & _ & Ht & Hfind & _).
  destruct (find_handler_or_star _ _ _ _ Hfind) as [Hh|[Hstar Hparam]];
    [done|].
  apply find_node_at in Hfind as (ks & _ & Hks).
  by apply (built_wildcards_handled r regs m t Hbuilt Hregs Ht ks node).
Qed.

Lemma Search_handler_present_witness :
  is_Some (Handler (wildcard_node "/static/*file" (Func "files")
                                  (new_option []) "*file")).
Proof.
  apply (Search_handler_present
           (Handle (Handle New "GET" "/posts/:id" None []).1
                   "GET" "/static/*file" (Some (Func "files")) []).1
           [("GET", "/static/*file", Func "files", new_option []);
            ("GET", "/posts/:id", Noop, new_option [])]
           "GET" "/static/css/site.css"
           (wildcard_node "/static/*file" (Func "files") (new_option [])
                          "*file")
           (Some {[ "file" := "/css/site.css" ]})).
  - apply (built_ok (Handle New "GET" "/posts/:id" None []).1
             [("GET", "/posts/:id", Noop, new_option [])]
             "GET" "/static/*file" (Some (Func "files")) []);
      [|reflexivity].
    apply (built_ok New [] "GET" "/posts/:id" None []);
      [apply built_New|reflexivity].
  - apply Forall_cons. split.
    + right. exists ["static"], "*file".
      split; [reflexivity|]. split; [|reflexivity].
      apply Forall_cons. split; [reflexivity|by apply Forall_nil].
    + apply Forall_cons. split; [by left|by apply Forall_nil].
  - vm_compute. reflexivity.
Defined.

(** ** Captures and wildcards at a position that is taken *)

(** C7, as stated, fails below the first segment.  After [/a/b], the
    pattern [/a/b/*c] carries a wildcard and its continuation [*c] has no
    node below [/a/b]; the registration is rejected, but as a duplicate,
    not as invalid syntax: with a [*name] segment in the pattern, [add]
    stops at the second segment once the first has its node. *)
Lemma Handle_capture_conflicts_counterexample :
  let r := (Handle New "GET" "/a/b" None []).1 in
  (Handle New "GET" "/a/b" None []).2 = None /\
  path_exists (tree_of r "GET") (keys ["a"; "b"]) /\
  ~ path_exists (tree_of r "GET") (keys ["a"; "b"; "*c"]) /\
  (Handle r "GET" "/a/b/*c" None []).2 = Some ErrRouterDuplicate /\
  (Handle r "GET" "/a/b/*c" None []).2 <> Some ErrRouterSyntax.
Proof. vm_compute. repeat split; (done || tauto). Qed.

(** A registration that succeeds ends on a node it has made: below the
    keys of its pattern the trie has nothing. *)
Lemma chain_nothing_below path handler opt stars slice current k0 :
  Children current = ∅ ->
  ~ path_exists (chain path handler opt stars slice current)
                (keys slice ++ [k0]).
Proof.
  revert current. induction slice as [|k rest IH]; intros current Hch.
  - cbn [chain keys map app path_exists set_handler Children].
    rewrite Hch, lookup_empty. tauto.
  - rewrite chain_cons. cbn [keys map app path_exists set_child Children].
    rewrite lookup_insert_eq. by apply IH.
Qed.

Lemma add_loop_success_nothing_below path handler opt stars slice starPrev
    current current' k0 :
  add_inv stars true starPrev current ->
  add_loop path handler opt stars slice true starPrev current =
    (current', None) ->
  ~ path_exists current' (keys slice ++ [k0]).
Proof.
  revert starPrev current current'.
  induction slice as [|k rest IH]; intros starPrev current current' Hinv.
  - done.
  - cbn [add_loop keys map]. destruct (add_key k) as [k' param] eqn:Hkey.
    cbn [fst].
    destruct ((0 <? stars)%nat && starPrev) eqn:Hsp.
    { by destruct (Children current !! k'). }
    destruct (Children current !! k') as [next|] eqn:Hk.
    + destruct (add_inv_found _ _ _ _ _ _ Hinv Hk) as [_ Hinv'].
      case_add_loop next' e Hrec. intros [= <- ->].
      cbn [app path_exists set_child Children]. rewrite lookup_insert_eq.
      by eapply IH.
    + rewrite add_loop_fresh by auto. intros [= <-].
      cbn [app path_exists set_child Children]. rewrite lookup_insert_eq.
      by apply chain_nothing_below.
Qed.

(** After a pattern without [*name] segment has been registered, the
    pattern with one more segment can be registered. *)
Lemma add_extend_after_success n p1 h1 o1 n' p2 h2 o2 k :
  add n p1 h1 o1 = (n', None) ->
  segments p2 = (segments p1 ++ [k])%list ->
  star_count (segments p2) = 0%nat ->
  (add n' p2 h2 o2).2 = None.
Proof.
  intros Hadd Hseg Hs.
  destruct (add_success _ _ _ _ _ Hadd) as [Hs1 _].
  rewrite add_loop_of_add in Hadd by done.
  pose proof (add_loop_success_nothing_below _ _ _ _ _ _ _ _
                (add_key k).1 (add_inv_init _ n) Hadd) as Hnone.
  rewrite add_error_outcome. unfold add_outcome. rewrite Hs. simpl.
  destruct (has_path n' (keys (segments p2))) eqn:Hp; [|done].
  apply has_path_exists in Hp. rewrite Hseg in Hp.
  unfold keys in Hp. rewrite map_app in Hp. by destruct Hnone.
Qed.

(** C7, amended: under one method, in every state of the router and at
    every position, registering a pattern a second time, and so [:id] at
    a position and then [:id] again at that position, is a duplicate, as
    is a pattern with the same keys (another capture name at the same
    position); registering [:id] and then [:id/:name] succeeds (the
    pattern extends the capture node that exists), as does every
    extension by one segment of a pattern just registered when neither
    has a [*name] segment; and registering a pattern with a [*name]
    segment whose first segment has its node already is invalid syntax
    when its second segment has no child there, as when [/posts2/*id]
    follows [/posts2], and a duplicate when it has one, whatever
    follows. *)
Theorem Handle_capture_conflicts :
  (forall r method pattern h1 f1 h2 f2,
     (Handle r method pattern h1 f1).2 = None ->
     (Handle (Handle r method pattern h1 f1).1 method pattern h2 f2).2
       = Some ErrRouterDuplicate) /\
  (forall r method p1 h1 f1 p2 h2 f2,
     (Handle r method p1 h1 f1).2 = None ->
     keys (segments p2) = keys (segments p1) ->
     (star_count (segments p2) <= 1)%nat ->
     (Handle (Handle r method p1 h1 f1).1 method p2 h2 f2).2
       = Some ErrRouterDuplicate) /\
  (forall pattern,
     pattern = "/:id" \/ pattern = "/posts/:id" ->
     (Handle New "PUT" pattern None []).2 = None /\
     (Handle (Handle New "PUT" pattern None []).1 "PUT" pattern None []).2
       = Some ErrRouterDuplicate) /\
  ((Handle (Handle New "PUT" "/posts/:id" None []).1
           "PUT" "/posts/:id/:name" None []).2 = None /\
   (Handle (Handle New "PUT" "/:id" None []).1
           "PUT" "/:id/:name" None []).2 = None) /\
  (forall r method p1 h1 f1 p2 h2 f2 k,
     (Handle r method p1 h1 f1).2 = None ->
     segments p2 = (segments p1 ++ [k])%list ->
     star_count (segments p2) = 0%nat ->
     (Handle (Handle r method p1 h1 f1).1 method p2 h2 f2).2 = None) /\
  (forall r method p1 h1 f1 p2 h2 f2 k,
     trees r !! method = None ->
     segments p2 = (segments p1 ++ [k])%list ->
     star_count (segments p2) = 0%nat ->
     (Handle r method p1 h1 f1).2 = None /\
     (Handle (Handle r method p1 h1 f1).1 method p2 h2 f2).2 = None) /\
  (forall r method pattern handler optionFns k1 k2 rest first,
     segments pattern = k1 :: k2 :: rest ->
     star_count (segments pattern) = 1%nat ->
     Children (tree_of r method) !! (add_key k1).1 = Some first ->
     (Children first !! (add_key k2).1 = None ->
      (Handle r method pattern handler optionFns).2 = Some ErrRouterSyntax) /\
     (is_Some (Children first !! (add_key k2).1) ->
      (Handle r method pattern handler optionFns).2
        = Some ErrRouterDuplicate)) /\
  ((Handle New "GET" "/posts2" None []).2 = None /\
   (Handle (Handle New "GET" "/posts2" None []).1
           "GET" "/posts2/*id" None []).2 = Some ErrRouterSyntax).
Proof.
  assert (Hkeys : forall r method p1 h1 f1 p2 h2 f2,
    (Handle r method p1 h1 f1).2 = None ->
    keys (segments p2) = keys (segments p1) ->
    (star_count (segments p2) <= 1)%nat ->
    (Handle (Handle r method p1 h1 f1).1 method p2 h2 f2).2
      = Some ErrRouterDuplicate).
  { intros r method p1 h1 f1 p2 h2 f2 Hok Hk Hs.
    rewrite (Handle_error (Handle _ _ _ _ _).1), tree_of_Handle.
    rewrite Handle_error in Hok.
    destruct (add (tree_of r method) p1 _ _) as [t e] eqn:Hadd.
    simpl in *; subst e. apply add_success in Hadd as [_ Hp].
    rewrite <- Hk in Hp. by rewrite add_existing. }
  split; [|split; [|split; [|split; [|split; [|split; [|split]]]]]].
  - intros r method pattern h1 f1 h2 f2 Hok.
    apply Hkeys; [done|done|].
    rewrite Handle_error in Hok.
    destruct (add (tree_of r method) pattern _ _) as [t e] eqn:Hadd.
    simpl in *; subst e. by apply add_success in Hadd as [Hs _].
  - exact Hkeys.
  - by intros pattern [-> | ->].
  - done.
  - intros r method p1 h1 f1 p2 h2 f2 k Hok Hseg Hs.
    rewrite (Handle_error (Handle _ _ _ _ _).1), tree_of_Handle.
    rewrite Handle_error in Hok.
    destruct (add (tree_of r method) p1 _ _) as [t e] eqn:Hadd.
    simpl in *; subst e. by eapply add_extend_after_success.
  - intros r method p1 h1 f1 p2 h2 f2 k Hm Hseg Hs.
    assert (star_count (segments p1) = 0%nat) as Hs1.
    { rewrite Hseg, star_count_app in Hs. lia. }
    rewrite (Handle_first r method p1) by (done || lia). split; [done|].
    rewrite Handle_error, Hs1. unfold tree_of; simpl.
    rewrite lookup_insert_eq; simpl.
    rewrite add_loop_of_add by lia. rewrite Hs, Hseg.
    by destruct (add_loop_extend p1 (Some (default Noop h1)) (new_option f1)
                   p2 (Some (default Noop h2)) (new_option f2)
                   (segments p1) k false new_root eq_refl) as [n' ->].
  - intros r method pattern handler optionFns k1 k2 rest first
           Hseg Hs Hk1.
    rewrite Handle_error, add_loop_of_add by lia. rewrite Hs, Hseg.
    cbn [add_loop]. destruct (add_key k1) as [k1' p1], (add_key k2) as [k2' p2].
    simpl in *. rewrite Hk1. split; [by intros ->|by intros [second ->]].
  - done.
Qed.

Lemma Handle_capture_conflicts_witness :
  (Handle (Handle (Handle New "GET" "/posts/new" None []).1
                  "GET" "/posts/:id" (Some (Func "show")) []).1
          "GET" "/posts/:id" None [Tag (Some "t")]).2
    = Some ErrRouterDuplicate /\
  (Handle (Handle (Handle New "GET" "/posts/new" None []).1
                  "GET" "/posts/:id" (Some (Func "show")) []).1
          "GET" "/posts/:id/:name" None []).2 = None /\
  (Handle (Handle New "GET" "/a/b" None []).1 "GET" "/a/*rest" None
          [Tag (Some "t")]).2 = Some ErrRouterSyntax.
Proof.
  split; [|split].
  - apply (proj1 Handle_capture_conflicts
             (Handle New "GET" "/posts/new" None []).1 "GET" "/posts/:id"
             (Some (Func "show")) [] None [Tag (Some "t")]).
    vm_compute; reflexivity.
  - apply (proj1 (proj2 (proj2 (proj2 (proj2 Handle_capture_conflicts))))
             (Handle New "GET" "/posts/new" None []).1 "GET" "/posts/:id"
             (Some (Func "show")) [] "/posts/:id/:name" None [] ":name");
      vm_compute; reflexivity.
  - eapply (proj1 (proj2 (proj2 (proj2 (proj2 (proj2 (proj2
              Handle_capture_conflicts))))))
              (Handle New "GET" "/a/b" None []).1 "GET" "/a/*rest" None
              [Tag (Some "t")] "a" "*rest" []);
      vm_compute; reflexivity.
Defined.
